(** * DataQualityReport: the sparkline renderers of [dataqualityreport/viz.py]

    A shallow embedding of the module's functions and of the parts of the
    Python runtime, numpy, pandas and matplotlib that they call, followed by
    the properties proved about them.

    Conventions of the embedding.
    - A Python [float] is a [pyfloat]: an exact rational, one of the two
      infinities, or NaN.  Comparisons and arithmetic follow IEEE 754 on the
      special values and are exact on the finite ones: binary64 rounding is
      not part of the model.
    - A column is a [Series]: numeric, with NaN for a missing entry, or of
      dtype [object], holding text with [None] for a missing entry.
    - A raised exception is the [Raise] result of a computation; code that
      touches the interpreter's global state (pyplot's figure registry, the
      attribute table of [pd.Series]) is a function of the [world], in which
      [Figure] and [Axes] objects are held by identity.
    - What a renderer draws is the list of artists it adds to the current
      axes; pixels are not modelled, and the PNG encoder is a parameter.
    - [data_utils.drop_outliers_iqr] is imported by the module from a file
      that is not among the sources: it is a parameter of [robust_hist].
    - Python modules become Rocq modules of the same name ([math], [np],
      [pd], [plt], [viz]), so a qualified name reads as in the source. *)

From Stdlib Require Import ZArith QArith Qround Qabs String Lia Lqa.
From stdpp Require Import base option list sorting gmap strings pretty.

Open Scope Z_scope.

(** ** Results and exceptions *)

Inductive exn :=
| TypeError
| ValueError
| OverflowError
| RuntimeError (msg : string).

Inductive result (A : Type) :=
| Ok (a : A)
| Raise (e : exn).
Arguments Ok {A} a.
Arguments Raise {A} e.

(** ** Python floats *)

Inductive pyfloat :=
| Finite (q : Q)
| PosInf
| NegInf
| NaN.

Definition Qlt_bool (x y : Q) : bool := negb (Qle_bool y x).

Module float.

(** [a == b] *)
Definition eqb (a b : pyfloat) : bool :=
  match a, b with
  | Finite x, Finite y => Qeq_bool x y
  | PosInf, PosInf | NegInf, NegInf => true
  | _, _ => false
  end.

(** [a < b] *)
Definition ltb (a b : pyfloat) : bool :=
  match a, b with
  | Finite x, Finite y => Qlt_bool x y
  | NegInf, (Finite _ | PosInf) => true
  | Finite _, PosInf => true
  | _, _ => false
  end.

(** [a > b] *)
Definition gtb (a b : pyfloat) : bool := ltb b a.

Definition neg (a : pyfloat) : pyfloat :=
  match a with
  | Finite x => Finite (- x)
  | PosInf => NegInf
  | NegInf => PosInf
  | NaN => NaN
  end.

(** [a + b] *)
Definition add (a b : pyfloat) : pyfloat :=
  match a, b with
  | Finite x, Finite y => Finite (x + y)
  | NaN, _ | _, NaN => NaN
  | PosInf, NegInf | NegInf, PosInf => NaN
  | PosInf, _ | _, PosInf => PosInf
  | NegInf, _ | _, NegInf => NegInf
  end.

(** [a - b] *)
Definition sub (a b : pyfloat) : pyfloat := add a (neg b).

(** [abs(a)] *)
Definition abs (a : pyfloat) : pyfloat :=
  match a with
  | Finite x => Finite (Qabs x)
  | PosInf | NegInf => PosInf
  | NaN => NaN
  end.

(** [a / d] for a finite non-zero divisor [d], the only divisions the module
    performs on a float it was handed. *)
Definition div_by (a : pyfloat) (d : Q) : pyfloat :=
  match a with
  | Finite x => Finite (x / d)
  | PosInf => if Qlt_bool d 0 then NegInf else PosInf
  | NegInf => if Qlt_bool d 0 then PosInf else NegInf
  | NaN => NaN
  end.

Definition isnan (a : pyfloat) : bool :=
  match a with NaN => true | _ => false end.

Definition isfinite (a : pyfloat) : bool :=
  match a with Finite _ => true | _ => false end.

Definition of_Z (z : Z) : pyfloat := Finite (inject_Z z).

End float.

(** ** Strings of digits *)

Definition zfill (width : nat) (s : string) : string :=
  String.concat "" (replicate (width - String.length s) "0"%string) +:+ s.

(** Round a non-negative rational to the nearest integer, ties to the even
    one: the rounding of Python's float formatting. *)
Definition round_half_even (q : Q) : Z :=
  let f := Qfloor q in
  match Qcompare (q - inject_Z f) (1 # 2) with
  | Lt => f
  | Gt => f + 1
  | Eq => if Z.even f then f else f + 1
  end.

(** The digits of ["{:.{p}f}".format(m)] for a finite [m >= 0]. *)
Definition format_unsigned (m : Q) (p : nat) : string :=
  let scaled := round_half_even (m * inject_Z (10 ^ Z.of_nat p)) in
  let digits := zfill (S p) (pretty (Z.to_N scaled)) in
  let n := String.length digits in
  let int_part := String.substring 0 (n - p) digits in
  let frac_part := String.substring (n - p) p digits in
  int_part +:+ (match p with O => "" | S _ => "." +:+ frac_part end).

(** ["{:.{p}f}".format(q)] for a finite [q]: a negative [q] keeps its sign
    even when it rounds to zero. *)
Definition format_fixed (q : Q) (p : nat) : string :=
  (if Qlt_bool q 0 then "-" else "") +:+ format_unsigned (Qabs q) p.

(** ["{:.{precision}f}".format(x, precision=precision)]: a negative precision
    is an invalid format specifier. *)
Definition format_f (x : pyfloat) (precision : Z) : result string :=
  if precision <? 0 then Raise ValueError
  else match x with
       | Finite q => Ok (format_fixed q (Z.to_nat precision))
       | PosInf => Ok "inf"%string
       | NegInf => Ok "-inf"%string
       | NaN => Ok "nan"%string
       end.

(** ** math *)

Module math.

(** Largest [k >= 0] with [1000^k * b <= a], for [0 < b <= a]. *)
Fixpoint log1000_up (fuel : nat) (a b : Z) : Z :=
  match fuel with
  | O => 0
  | S f => if 1000 * b <=? a then 1 + log1000_up f a (1000 * b) else 0
  end.

(** The negative [k] with [1000^k <= a/b < 1000^(k+1)], for [0 < a < b]. *)
Fixpoint log1000_down (fuel : nat) (a b : Z) : Z :=
  match fuel with
  | O => -1
  | S f => if b <=? 1000 * a then -1 else -1 + log1000_down f (1000 * a) b
  end.

(** [floor(log10(q) / 3)] for a positive rational [q = a / b]: the integer
    [k] with [1000^k <= q < 1000^(k+1)]. *)
Definition floor_log1000 (q : Q) : Z :=
  let a := Qnum q in
  let b := Zpos (Qden q) in
  if b <=? a then log1000_up (S (Z.to_nat (Z.log2 a))) a b
  else log1000_down (S (Z.to_nat (Z.log2 b))) a b.

(** [math.floor(math.log10(x) / 3)].  [math.log10] raises [ValueError] on a
    non-positive argument; [math.floor] raises [ValueError] on NaN and
    [OverflowError] on an infinity. *)
Definition floor_log10_div3 (x : pyfloat) : result Z :=
  match x with
  | Finite q => if Qlt_bool 0 q then Ok (floor_log1000 q) else Raise ValueError
  | PosInf => Raise OverflowError
  | NegInf => Raise ValueError
  | NaN => Raise ValueError
  end.

End math.

(** ** Columns: the part of pandas the module uses *)

(** A column is numeric (missing entries are NaN) or of dtype [object]
    (text, missing entries are [None]). *)
Inductive Series :=
| NumSeries (values : list pyfloat)
| ObjSeries (values : list (option string)).

Module pd.

Definition len (ser : Series) : nat :=
  match ser with
  | NumSeries l => length l
  | ObjSeries l => length l
  end.

(** [ser.notna()] *)
Definition notna (ser : Series) : list bool :=
  match ser with
  | NumSeries l => map (λ x, negb (float.isnan x)) l
  | ObjSeries l => map (λ o, match o with Some _ => true | None => false end) l
  end.

(** [ser.dropna()] on a numeric column *)
Definition dropna_num (l : list pyfloat) : list pyfloat :=
  filter (λ x, float.isnan x = false) l.

(** [ser.dropna()]: the dtype is kept *)
Definition dropna (ser : Series) : Series :=
  match ser with
  | NumSeries l => NumSeries (dropna_num l)
  | ObjSeries l => ObjSeries (filter (λ o, is_Some o) l)
  end.

(** Insertion into a sorted list without repetition. *)
Fixpoint insert_sorted (s : string) (l : list string) : list string :=
  match l with
  | [] => [s]
  | t :: r =>
      if String.eqb s t then l
      else if String.ltb s t then s :: l
      else t :: insert_sorted s r
  end.

(** The categories of [astype("category")]: the distinct non-missing values,
    sorted. *)
Definition categories (l : list (option string)) : list string :=
  foldr (λ o acc, match o with Some s => insert_sorted s acc | None => acc end) [] l.

Fixpoint index_of (s : string) (l : list string) (i : Z) : Z :=
  match l with
  | [] => -1
  | t :: r => if String.eqb s t then i else index_of s r (i + 1)
  end.

(** [ser.astype("category").cat.codes]: the position of each value among the
    categories, and -1 for a missing entry. *)
Definition cat_codes (l : list (option string)) : list Z :=
  let cats := categories l in
  map (λ o, match o with Some s => index_of s cats 0 | None => -1 end) l.

(** [pd.to_numeric] on a column that is numeric already, the only use the
    module makes of it: the column is returned as it is. *)
Definition to_numeric (l : list pyfloat) : list pyfloat := l.

(** The distinct values of a column, each at its first occurrence. *)
Fixpoint unique (l : list pyfloat) : list pyfloat :=
  match l with
  | [] => []
  | x :: r => x :: filter (λ y, float.eqb y x = false) (unique r)
  end.

(** [ser.nunique()]: the number of distinct values, NaN left out. *)
Definition nunique (l : list pyfloat) : Z :=
  Z.of_nat (length (unique (dropna_num l))).

(** The row positions of each group of [ser.groupby(keys)], groups ordered
    by key, rows in their order within a group. *)
Fixpoint group_insert (k : Z) (i : nat) (gs : list (Z * list nat)) : list (Z * list nat) :=
  match gs with
  | [] => [(k, [i])]
  | (k', rows) :: rest =>
      if k =? k' then (k', rows ++ [i]) :: rest
      else if k <? k' then (k, [i]) :: gs
      else (k', rows) :: group_insert k i rest
  end.

Definition groupby (keys : list Z) : list (Z * list nat) :=
  fold_left (λ gs ik, group_insert ik.2 ik.1 gs) (imap (λ i k, (i, k)) keys) [].

(** The entries of a column at the rows [rows]: the sub-column [x] that the
    function given to [aggregate] receives for a group. *)
Definition take_rows {A} (l : list A) (rows : list nat) : list A :=
  omap (λ i, l !! i) rows.

(** [x.count()], from the flags [x.notna()]: the entries that are not
    missing, whatever their value. *)
Definition count (flags : list bool) : nat :=
  length (filter (λ b, b = true) flags).

End pd.

(** ** numpy *)

Module np.

(** [np.arange(n)], also [range(n)] *)
Definition arange (n : nat) : list Z := map Z.of_nat (seq 0 n).

Fixpoint fold_ext (pick : pyfloat → pyfloat → bool) (acc : pyfloat) (l : list pyfloat) : pyfloat :=
  match l with
  | [] => acc
  | x :: r =>
      if float.isnan acc then NaN
      else if float.isnan x then NaN
      else fold_ext pick (if pick x acc then x else acc) r
  end.

(** [a.min()] and [a.max()] of a non-empty array: NaN if any entry is. *)
Definition amin (x : pyfloat) (l : list pyfloat) : pyfloat := fold_ext float.ltb x l.
Definition amax (x : pyfloat) (l : list pyfloat) : pyfloat := fold_ext float.gtb x l.

(** [_get_outer_edges(a, None)] *)
Definition outer_edges (a : list pyfloat) : result (Q * Q) :=
  match a with
  | [] => Ok (0%Q, 1%Q)
  | x :: r =>
      match amin x r, amax x r with
      | Finite lo, Finite hi =>
          if Qeq_bool lo hi then Ok ((lo - (1 # 2))%Q, (hi + (1 # 2))%Q)
          else Ok (lo, hi)
      | _, _ => Raise ValueError
      end
  end.

(** [np.linspace(start, stop, n + 1)] *)
Definition linspace (start stop : Q) (n : nat) : list Q :=
  map (λ i, (start + inject_Z (Z.of_nat i) * ((stop - start) / inject_Z (Z.of_nat n)))%Q)
      (seq 0 (S n)).

(** [np.histogram_bin_edges(a, bins=n)] for an integer [n]: [n] must be
    positive and the range of [a] finite; the result has [n + 1] edges. *)
Definition histogram_bin_edges (a : list pyfloat) (bins : Z) : result (list Q) :=
  if bins <? 1 then Raise ValueError
  else match outer_edges a with
       | Raise e => Raise e
       | Ok (first_edge, last_edge) => Ok (linspace first_edge last_edge (Z.to_nat bins))
       end.

Definition in_bin (last_bin : bool) (lo hi : Q) (x : pyfloat) : bool :=
  match x with
  | Finite v => Qle_bool lo v && (if last_bin then Qle_bool v hi else Qlt_bool v hi)
  | _ => false
  end.

(** [np.histogram(a, bins=edges)[0]]: bins are closed on the left and open on
    the right, the last one closed on both sides. *)
Fixpoint histogram (a : list pyfloat) (edges : list Q) : list nat :=
  match edges with
  | lo :: ((hi :: rest) as tl) =>
      length (filter (λ x, in_bin (match rest with [] => true | _ => false end) lo hi x = true) a)
        :: histogram a tl
  | _ => []
  end.

End np.

(** ** matplotlib: artists, axes, figures and pyplot's global state *)

Inductive Color :=
| Named (name : string)   (* a colour given by name, such as ["white"] *)
| Reds (x : pyfloat)      (* [cm.Reds(x)] *)
| tab20c (i : nat).       (* [cm.tab20c.colors[i]] *)

Record Rectangle := {
  rect_x : Z;
  rect_width : Q;
  rect_height : pyfloat;
  rect_bottom : pyfloat;
  rect_color : Color;
  rect_alpha : option Q
}.

(** A wedge of [plt.pie(x, ...)]: [wedge_x] is the entry of [x] it stands
    for, drawn as the share [wedge_x / sum(x)] of the circle. *)
Record Wedge := {
  wedge_x : pyfloat;
  wedge_color : Color;
  wedge_startangle : Q;
  wedge_counterclock : bool;
  wedge_width : Q;
  wedge_ec : Color;
  wedge_lw : Q;
  wedge_alpha : Q
}.

Record Text := {
  text_x : Q;
  text_y : Q;
  text_s : string;
  text_ha : string;
  text_va : string;
  text_fontsize : Q
}.

Record Histogram := {
  hist_edges : list Q;
  hist_counts : list nat;
  hist_density : bool
}.

Inductive artist :=
| ARect (r : Rectangle)
| AWedge (w : Wedge)
| AText (t : Text)
| AHist (h : Histogram).

Record Axes := {
  ax_rect : Q * Q * Q * Q;
  axison : bool;
  ax_artists : list artist;
  ax_ylim : option (Q * Q);
  spines_visible : bool;
  xticks : option (list Q);
  yticks : option (list Q)
}.

Record Figure := {
  figsize : Q * Q;
  fig_axes : list nat;
  subplotpars : option (Q * Q * Q * Q)
}.

Definition new_Axes (rect : Q * Q * Q * Q) : Axes :=
  {| ax_rect := rect; axison := true; ax_artists := []; ax_ylim := None;
     spines_visible := true; xticks := None; yticks := None |}.

Definition new_Figure (size : Q * Q) : Figure :=
  {| figsize := size; fig_axes := []; subplotpars := None |}.

#[global] Instance Axes_inhabited : Inhabited Axes := populate (new_Axes (0, 0, 1, 1)%Q).
#[global] Instance Figure_inhabited : Inhabited Figure := populate (new_Figure (0, 0)%Q).

(** A function object, by the module and name it was defined under. *)
Inductive pyobj :=
| Function (module name : string).

(** The state the module's code reads and writes: the attributes of the class
    [pd.Series]; the [Figure] and [Axes] objects, by identity; and [Gcf], the
    registry of the figures pyplot keeps open, the current one last. *)
Record world := {
  Series_attrs : gmap string pyobj;
  figs : gmap nat Figure;
  axs : gmap nat Axes;
  Gcf : list nat
}.

Definition set_Series_attrs (f : gmap string pyobj → gmap string pyobj) (w : world) : world :=
  {| Series_attrs := f (Series_attrs w); figs := figs w; axs := axs w; Gcf := Gcf w |}.
Definition set_figs (f : gmap nat Figure → gmap nat Figure) (w : world) : world :=
  {| Series_attrs := Series_attrs w; figs := f (figs w); axs := axs w; Gcf := Gcf w |}.
Definition set_axs (f : gmap nat Axes → gmap nat Axes) (w : world) : world :=
  {| Series_attrs := Series_attrs w; figs := figs w; axs := f (axs w); Gcf := Gcf w |}.
Definition set_Gcf (f : list nat → list nat) (w : world) : world :=
  {| Series_attrs := Series_attrs w; figs := figs w; axs := axs w; Gcf := f (Gcf w) |}.

(** Code that runs in a [world] and returns or raises, in the world it
    leaves. *)
Definition M (A : Type) : Type := world → result A * world.

#[global] Instance M_ret : MRet M := λ A a w, (Ok a, w).
#[global] Instance M_bind : MBind M := λ A B f m w,
  match m w with
  | (Ok a, w') => f a w'
  | (Raise e, w') => (Raise e, w')
  end.

Definition raise {A} (e : exn) : M A := λ w, (Raise e, w).
Definition lift {A} (r : result A) : M A := λ w, (r, w).
Definition modify (f : world → world) : M unit := λ w, (Ok (), f w).
Definition get {A} (f : world → A) : M A := λ w, (Ok (f w), w).

Definition update_axes (ax : nat) (f : Axes → Axes) : M unit :=
  modify (λ w, set_axs (λ m, <[ax := f (m !!! ax)]> m) w).
Definition update_figure (fig : nat) (f : Figure → Figure) : M unit :=
  modify (λ w, set_figs (λ m, <[fig := f (m !!! fig)]> m) w).

Definition add_artists (l : list artist) (a : Axes) : Axes :=
  {| ax_rect := ax_rect a; axison := axison a; ax_artists := ax_artists a ++ l;
     ax_ylim := ax_ylim a; spines_visible := spines_visible a;
     xticks := xticks a; yticks := yticks a |}.

Definition axis_off (a : Axes) : Axes :=
  {| ax_rect := ax_rect a; axison := false; ax_artists := ax_artists a;
     ax_ylim := ax_ylim a; spines_visible := spines_visible a;
     xticks := xticks a; yticks := yticks a |}.

(** The identity of the next [Figure] object: one that no figure has, open
    or closed. *)
Definition new_figure_id (w : world) : nat :=
  fresh (dom (figs w) ∪ list_to_set (Gcf w)).

Module plt.

(** [plt.figure(figsize=figsize)]: a new [Figure], registered and current. *)
Definition figure (size : Q * Q) : M nat := λ w,
  let fig := new_figure_id w in
  (Ok fig, set_Gcf (λ l, l ++ [fig]) (set_figs (λ m, <[fig := new_Figure size]> m) w)).

(** [plt.Axes(fig, rect)]: a new [Axes], not yet part of the figure. *)
Definition Axes (fig : nat) (rect : Q * Q * Q * Q) : M nat := λ w,
  let ax := fresh (dom (axs w)) in
  (Ok ax, set_axs (λ m, <[ax := new_Axes rect]> m) w).

(** [fig.add_axes(ax)]: [ax] becomes the figure's current axes. *)
Definition add_axes (fig ax : nat) : M unit :=
  update_figure fig (λ F,
    {| figsize := figsize F; fig_axes := fig_axes F ++ [ax]; subplotpars := subplotpars F |}).

(** [plt.gcf()]: the current figure; a new one if none is open. *)
Definition gcf : M nat := λ w,
  match last (Gcf w) with
  | Some fig => (Ok fig, w)
  | None => figure (64 # 10, 48 # 10)%Q w
  end.

(** [plt.gca()]: the current axes of the current figure; new ones if the
    figure has none. *)
Definition gca : M nat :=
  fig ← gcf;
  F ← get (λ w, figs w !!! fig);
  match last (fig_axes F) with
  | Some ax => mret ax
  | None =>
      ax ← Axes fig (1 # 8, 11 # 100, 31 # 40, 77 # 100)%Q;
      add_axes fig ax;;
      mret ax
  end.

(** [ax.set_axis_off()] *)
Definition set_axis_off (ax : nat) : M unit := update_axes ax axis_off.

Definition set_ylim (ax : nat) (ylim : Q * Q) : M unit :=
  update_axes ax (λ a,
    {| ax_rect := ax_rect a; axison := axison a; ax_artists := ax_artists a;
       ax_ylim := Some ylim; spines_visible := spines_visible a;
       xticks := xticks a; yticks := yticks a |}).

(** [for k, v in ax.spines.items(): v.set_visible(False)] *)
Definition hide_spines (ax : nat) : M unit :=
  update_axes ax (λ a,
    {| ax_rect := ax_rect a; axison := axison a; ax_artists := ax_artists a;
       ax_ylim := ax_ylim a; spines_visible := false;
       xticks := xticks a; yticks := yticks a |}).

Definition set_xticks (ax : nat) (t : list Q) : M unit :=
  update_axes ax (λ a,
    {| ax_rect := ax_rect a; axison := axison a; ax_artists := ax_artists a;
       ax_ylim := ax_ylim a; spines_visible := spines_visible a;
       xticks := Some t; yticks := yticks a |}).

Definition set_yticks (ax : nat) (t : list Q) : M unit :=
  update_axes ax (λ a,
    {| ax_rect := ax_rect a; axison := axison a; ax_artists := ax_artists a;
       ax_ylim := ax_ylim a; spines_visible := spines_visible a;
       xticks := xticks a; yticks := Some t |}).

(** [plt.subplots_adjust(left, right, top, bottom)], on the current figure *)
Definition subplots_adjust (left right top bottom : Q) : M unit :=
  fig ← gcf;
  update_figure fig (λ F,
    {| figsize := figsize F; fig_axes := fig_axes F;
       subplotpars := Some (left, right, top, bottom) |}).

(** [plt.close(fig)]: the figure leaves the registry. *)
Definition close (fig : nat) : M unit :=
  modify (set_Gcf (filter (λ f, f ≠ fig))).

(** [ax.bar(x, height, width, bottom, color, alpha)]: one rectangle per
    position of [x]. *)
Definition bar (ax : nat) (x : list Z) (width : Q) (height bottom : list pyfloat)
    (colors : list Color) (alpha : option Q) : M unit :=
  update_axes ax (add_artists
    (zip_with (λ xh bc, ARect {| rect_x := xh.1; rect_width := width; rect_height := xh.2;
                                 rect_bottom := bc.1; rect_color := bc.2; rect_alpha := alpha |})
       (zip x height) (zip bottom colors))).

(** [plt.pie(x, startangle, counterclock, wedgeprops, colors)]: one wedge
    per entry of [x], on the current axes. *)
Definition pie (x : list pyfloat) (startangle : Q) (counterclock : bool)
    (width : Q) (ec : Color) (lw alpha : Q) (colors : list Color) : M unit :=
  ax ← gca;
  update_axes ax (add_artists
    (zip_with (λ v c, AWedge {| wedge_x := v; wedge_color := c; wedge_startangle := startangle;
                                wedge_counterclock := counterclock; wedge_width := width;
                                wedge_ec := ec; wedge_lw := lw; wedge_alpha := alpha |})
       x colors)).

(** [plt.text(x, y, s, horizontalalignment, verticalalignment, fontsize)] *)
Definition text (x y : Q) (s ha va : string) (fontsize : Q) : M unit :=
  ax ← gca;
  update_axes ax (add_artists
    [AText {| text_x := x; text_y := y; text_s := s; text_ha := ha; text_va := va;
              text_fontsize := fontsize |}]).

End plt.

(** [ser.hist(bins=edges, density=density)]: a histogram of the column over
    the given edges, drawn on the current axes. *)
Definition Series_hist (values : list pyfloat) (edges : list Q) (density : bool) : M nat :=
  ax ← plt.gca;
  update_axes ax (add_artists
    [AHist {| hist_edges := edges; hist_counts := np.histogram (pd.dropna_num values) edges;
              hist_density := density |}]);;
  mret ax.

(** ** dataqualityreport.viz *)

(** The double quote of the [<img src=...>] tag. *)
Definition dquote : string := String (Ascii.ascii_of_nat 34) EmptyString.

(** [min(a, b)] where [b] may be [None]: comparing an [int] with [None]
    raises [TypeError]. *)
Definition py_min (a : Z) (b : option Z) : result Z :=
  match b with
  | Some b => Ok (Z.min a b)
  | None => Raise TypeError
  end.

(** [label or ""] *)
Definition or_empty (label : option string) : string :=
  match label with
  | Some s => s
  | None => ""
  end.

Module viz.

Section externals.

(** [data_utils.drop_outliers_iqr], on the one column of the frame it is
    given: the module is imported by [viz.py] and is not part of the sources
    at hand, so the filter is a parameter of what follows. *)
Variable drop_outliers_iqr : list pyfloat → Z → list pyfloat.

(** The PNG encoder behind [plt.savefig] and [base64.b64encode]. *)
Variable print_png : Figure → list Axes → string.
Variable b64encode : string → string.

(** [plt.savefig(img, bbox_inches="tight", pad_inches=0)] followed by
    [img.seek(0)] and [img.read()]: the bytes of the current figure. *)
Definition savefig : M string :=
  fig ← plt.gcf;
  get (λ w, let F := figs w !!! fig in
            print_png F (map (λ ax, axs w !!! ax) (fig_axes F))).

Definition sparkify {R} (plt_func : M R) (figsize : Q * Q) (ylim : option (Q * Q))
    (caption : option string) : M string :=
  fig ← plt.figure figsize;
  ax ← plt.Axes fig (0, 0, 1, 1)%Q;
  plt.set_axis_off ax;;
  plt.add_axes fig ax;;
  plt_func;;
  match ylim with
  | Some l => plt.set_ylim ax l
  | None => mret ()
  end;;
  plt.hide_spines ax;;
  plt.set_xticks ax [];;
  plt.set_yticks ax [];;
  plt.subplots_adjust 0 1 1 0;;
  img ← savefig;
  plt.close fig;;
  let img_str := "<img src=" +:+ dquote +:+ "data:image/png;base64," +:+ b64encode img
                   +:+ dquote +:+ "/>" in
  match caption with
  | None => mret img_str
  | Some caption => mret ("<div title='" +:+ caption +:+ "'>" +:+ img_str +:+ "</div>")
  end.

(** [if is_object_dtype(ser): ser = ser.astype("category").cat.codes]: the
    test holds of the [ObjSeries] columns, and the column is numeric
    afterwards in either branch. *)
Definition codes_if_object (ser : Series) : list pyfloat :=
  match ser with
  | ObjSeries l => map float.of_Z (pd.cat_codes l)
  | NumSeries l => l
  end.

(** Lines 87 to 90: the primary column as [robust_hist] plots it. *)
Definition normalize_ser (ser : Series) : list pyfloat :=
  let ser := pd.dropna ser in
  let ser := codes_if_object ser in
  pd.to_numeric ser.

(** Lines 94 to 96: the reference column as [robust_hist] scales by it. *)
Definition normalize_ref_ser (ref_ser : Series) : list pyfloat :=
  let ref_ser := codes_if_object ref_ser in
  pd.to_numeric (pd.dropna_num ref_ser).

(** Line 99: the edges [robust_hist] computes, from the scale source as
    normalized. *)
Definition bin_edges (ref_ser : list pyfloat) (bins : option Z) (IQR_multiple : Z) : result (list Q) :=
  let no_outliers := drop_outliers_iqr ref_ser IQR_multiple in
  let n_unique := pd.nunique no_outliers in
  match py_min (Z.max n_unique 1) bins with
  | Raise e => Raise e
  | Ok b => np.histogram_bin_edges no_outliers b
  end.

Definition robust_hist (ser : Series) (ref_ser : option Series) (bins : option Z)
    (IQR_multiple : Z) (density : bool) : M nat :=
  let ser := normalize_ser ser in
  let ref_ser :=
    match ref_ser with
    | None => ser
    | Some ref_ser => normalize_ref_ser ref_ser
    end in
  bins_np ← lift (bin_edges ref_ser bins IQR_multiple);
  Series_hist ser bins_np density.

(** [len(ser) / 15] *)
Definition chunk_width (L : nat) : Q := inject_Z (Z.of_nat L) / 15.

(** [np.floor(np.arange(len(ser)) / (len(ser) / 15))] *)
Definition chunk_keys (L : nat) : list Z :=
  map (λ i, Qfloor (inject_Z i / chunk_width L)) (np.arange L).

(** The rows of each group of the [groupby] of [missing_heatmap]. *)
Definition chunk_rows (L : nat) : list (list nat) :=
  snd <$> pd.groupby (chunk_keys L).

(** [lambda x: x.count() * 1.0 / len(x)], on the non-missing flags of the
    rows of a group. *)
Definition completion (flags : list bool) : Q :=
  inject_Z (Z.of_nat (pd.count flags)) * 1 / inject_Z (Z.of_nat (length flags)).

(** [ser.groupby(...).aggregate(...)]: the completion of each chunk. *)
Definition ser_chunk (ser : Series) : list Q :=
  map (λ rows, completion (pd.take_rows (pd.notna ser) rows)) (chunk_rows (pd.len ser)).

(** ["white" if val == 0.0 else cm.Reds((val + 0.1) / 1.1)] *)
Definition heat_color (val : Q) : Color :=
  if Qeq_bool val 0 then Named "white"
  else Reds (Finite ((val + (1 # 10)) / (11 # 10))).

Definition missing_heatmap (ser : Series) : M nat :=
  let ser_chunk := ser_chunk ser in
  ax ← plt.gca;
  plt.bar ax (np.arange (length ser_chunk)) 1
    (replicate (length ser_chunk) (Finite 1))
    (replicate (length ser_chunk) (Finite 0))
    (map (λ c, heat_color (1 - c)) ser_chunk)
    None;;
  mret ax.

Definition donut (perc : pyfloat) (label : option string) (color : string) (wedgewidth : Q) : M nat :=
  ax ← plt.gca;
  match (if float.eqb perc (Finite 1) then Some ([perc], [Named color])
         else if float.eqb perc (Finite 0) then Some ([Finite 1], [Named "white"])
         else if float.ltb (Finite 0) perc && float.ltb perc (Finite 1)
              then Some ([perc; float.sub (Finite 1) perc], [Named color; Named "white"])
              else None) with
  | None => mret ax
  | Some (plt_data, colors) =>
      plt.pie plt_data 90 false wedgewidth (Named "lightgrey") 1
        (if float.gtb perc (Finite 0) then 1 else 1 # 2) colors;;
      plt.text 0 0 (or_empty label) "center" "center" 8;;
      mret ax
  end.

Definition spark_donut (perc : pyfloat) (label : option string) (color : string)
    (wedgewidth : Q) (figsize : Q * Q) (caption : option string) : M string :=
  sparkify (donut perc label color wedgewidth) figsize None caption.

Definition spark_hist (ser : Series) (ref_ser : option Series) (bins : option Z)
    (IQR_multiple : Z) (density : bool) (figsize : Q * Q) (caption : option string) : M string :=
  sparkify (robust_hist ser ref_ser bins IQR_multiple density) figsize None caption.

Definition missing_bar (ser : list pyfloat) : M nat :=
  ax ← plt.gca;
  plt.bar ax (np.arange (length ser)) 1
    (map (float.sub (Finite 1)) ser)
    (replicate (length ser) (Finite 0))
    (replicate (length ser) (tab20c 3))
    (Some (1 # 10));;
  plt.bar ax (np.arange (length ser)) 1
    ser
    (map (float.sub (Finite 1)) ser)
    (map (λ val, if float.eqb val (Finite 1) then Reds (Finite (7 # 10)) else Reds (Finite (1 # 10))) ser)
    None;;
  mret ax.

Definition spark_missing_bar (ser : list pyfloat) (figsize : Q * Q) (caption : option string) : M string :=
  sparkify (missing_bar ser) figsize (Some (0, 1)%Q) caption.

Definition spark_missing_heatmap (ser : Series) (figsize : Q * Q) (caption : option string) : M string :=
  sparkify (missing_heatmap ser) figsize (Some (0, 1)%Q) caption.

End externals.

Definition millnames : list string := [""; "k"; "M"; "B"; "T"; "P"; "E"; "Z"; "Y"]%string.

(** [max(0, min(len(millnames) - 1, int(math.floor(0 if n == 0 else math.log10(abs(n)) / 3))))] *)
Definition millidx (n : pyfloat) : result Z :=
  match (if float.eqb n (Finite 0) then Ok 0
         else math.floor_log10_div3 (float.abs n)) with
  | Ok k => Ok (Z.max 0 (Z.min (Z.of_nat (length millnames) - 1) k))
  | Raise e => Raise e
  end.

Definition millify (n : pyfloat) (precision : Z) : result string :=
  match millidx n with
  | Raise e => Raise e
  | Ok millidx =>
      match format_f (float.div_by n (inject_Z (10 ^ (3 * millidx)))) precision with
      | Raise e => Raise e
      | Ok result => Ok (result +:+ millnames !!! Z.to_nat millidx)
      end
  end.

(** Line 222, [pd.Series.robust_hist = robust_hist]: the statement the module
    runs when it is imported, after its [def]s. *)
Definition import_module : M unit :=
  modify (set_Series_attrs (λ m, <["robust_hist" := Function "dataqualityreport.viz" "robust_hist"]> m)).

End viz.

(** ** The vocabulary of the statements *)

(** The tier [millify] selects for a finite [q]. *)
Definition tier_of (q : Q) : Z :=
  if Qeq_bool q 0 then 0 else Z.max 0 (Z.min 8 (math.floor_log1000 (Qabs q))).

(** The artists on the axes [ax], in the order they were added. *)
Definition artists_of (w : world) (ax : nat) : list artist := ax_artists (axs w !!! ax).

(** The world after the artists [l] were added to the axes [ax]. *)
Definition draw_on (ax : nat) (l : list artist) (w : world) : world :=
  set_axs (λ m, <[ax := add_artists l (m !!! ax)]> m) w.

(** [ax] is what [plt.gca()] answers in [w] without creating anything. *)
Definition current_axes (w : world) (ax : nat) : Prop :=
  ∃ fig, last (Gcf w) = Some fig ∧ last (fig_axes (figs w !!! fig)) = Some ax.

(** Run in [w], the renderer [m] returns the current axes, having added to
    them the artists [l], in this order, and nothing else: no other axes, no
    figure, and neither the registry nor [pd.Series] change.  [w0] is the
    world in which the renderer's first [gca()] has answered. *)
Definition draws (m : M nat) (w : world) (l : list artist) : Prop :=
  ∃ ax w0 w',
    plt.gca w = (Ok ax, w0) ∧ m w = (Ok ax, w') ∧
    axs w' !!! ax = add_artists l (axs w0 !!! ax) ∧
    (∀ ax', ax' ≠ ax → axs w' !! ax' = axs w0 !! ax') ∧
    figs w' = figs w0 ∧ Gcf w' = Gcf w0 ∧ Series_attrs w' = Series_attrs w0.

(** The wedges, and the texts, among the artists [l]. *)
Definition wedges (l : list artist) : list Wedge :=
  omap (λ a, match a with AWedge w => Some w | _ => None end) l.

Definition texts (l : list artist) : list Text :=
  omap (λ a, match a with AText t => Some t | _ => None end) l.

(** [perc] is not in [[0, 1]]: below 0, above 1, infinite or NaN. *)
Definition outside_unit_interval (perc : pyfloat) : Prop :=
  match perc with
  | Finite q => (q < 0)%Q ∨ (1 < q)%Q
  | PosInf | NegInf | NaN => True
  end.

(** The wedge [donut] asks [plt.pie] for. *)
Definition donut_wedge (x : pyfloat) (c : Color) (wedgewidth alpha : Q) : Wedge :=
  {| wedge_x := x; wedge_color := c; wedge_startangle := 90; wedge_counterclock := false;
     wedge_width := wedgewidth; wedge_ec := Named "lightgrey"; wedge_lw := 1;
     wedge_alpha := alpha |}.

(** The text [donut] asks [plt.text] for. *)
Definition donut_text (label : option string) : Text :=
  {| text_x := 0; text_y := 0; text_s := or_empty label; text_ha := "center";
     text_va := "center"; text_fontsize := 8 |}.

(** A process in which no figure is open and [pd.Series] has no attribute of
    the module's. *)
Definition initial_world : world :=
  {| Series_attrs := ∅; figs := ∅; axs := ∅; Gcf := [] |}.

(** The two bars [missing_bar] draws at position [i] for the value [v]. *)
Definition background_bar (i : nat) (v : pyfloat) : artist :=
  ARect {| rect_x := Z.of_nat i; rect_width := 1; rect_height := float.sub (Finite 1) v;
           rect_bottom := Finite 0; rect_color := tab20c 3; rect_alpha := Some (1 # 10) |}.

Definition foreground_bar (i : nat) (v : pyfloat) : artist :=
  ARect {| rect_x := Z.of_nat i; rect_width := 1; rect_height := v;
           rect_bottom := float.sub (Finite 1) v;
           rect_color := if float.eqb v (Finite 1) then Reds (Finite (7 # 10))
                         else Reds (Finite (1 # 10));
           rect_alpha := None |}.

(** Groups in the order of their keys. *)
Definition key_lt (a b : Z * list nat) : Prop := a.1 < b.1.

(** Keys that never decrease along the rows. *)
Definition monotone (ks : list Z) : Prop :=
  ∀ i j a b, (i ≤ j)%nat → ks !! i = Some a → ks !! j = Some b → a ≤ b.

(** What [groupby] makes of keys that never decrease: the groups, in order,
    are the rows [0, 1, ...] cut into non-empty consecutive runs. *)
Record grouped (ks : list Z) (gs : list (Z * list nat)) : Prop := {
  grouped_concat : concat gs.*2 = seq 0 (length ks);
  grouped_nonempty : Forall (λ g, g.2 ≠ []) gs;
  grouped_sorted : StronglySorted key_lt gs;
  grouped_keys : Forall (λ g, g.1 ∈ ks) gs
}.

(** The bar [missing_heatmap] draws at position [i] for a chunk of completion
    [c]. *)
Definition heat_bar (i : nat) (c : Q) : artist :=
  ARect {| rect_x := Z.of_nat i; rect_width := 1; rect_height := Finite 1;
           rect_bottom := Finite 0; rect_color := viz.heat_color (1 - c);
           rect_alpha := None |}.

(** The completion of a chunk in the words of the claim C2: the number of its
    entries equal to 1, divided by its size. *)
Definition present_fraction (x : list pyfloat) : Q :=
  inject_Z (Z.of_nat (length (filter (λ v, float.eqb v (Finite 1) = true) x)))
    / inject_Z (Z.of_nat (length x)).

(** The column whose filtered values fix the bin edges: the reference column
    if one is given, the primary column otherwise, each as [robust_hist]
    normalizes it. *)
Definition scale_source (ser : Series) (ref_ser : option Series) : list pyfloat :=
  match ref_ser with
  | None => viz.normalize_ser ser
  | Some ref_ser => viz.normalize_ref_ser ref_ser
  end.

(** A filter that finds no outlier and keeps every row. *)
Definition keep_rows (l : list pyfloat) (IQR_multiple : Z) : list pyfloat := l.

(** An encoder for the examples: the picture itself plays no part in them. *)
Definition png_stub (F : Figure) (axes : list Axes) : string := "PNG".
Definition b64_stub (s : string) : string := s.

(** The [<img>] element [sparkify] builds around the encoded picture, and the
    [<div>] it puts around the element for a caption. *)
Definition img_tag (data : string) : string :=
  "<img src=" +:+ dquote +:+ "data:image/png;base64," +:+ data +:+ dquote +:+ "/>".

Definition with_caption (caption : option string) (html : string) : string :=
  match caption with
  | None => html
  | Some caption => "<div title='" +:+ caption +:+ "'>" +:+ html +:+ "</div>"
  end.

(** The figure of a sparkline whose only axes are [ax], and the state of
    those axes when the picture is taken: they fill the figure, show neither
    axis, spines nor ticks, and hold the artists [l]. *)
Definition spark_figure (size : Q * Q) (ax : nat) : Figure :=
  {| figsize := size; fig_axes := [ax]; subplotpars := Some (0, 1, 1, 0)%Q |}.

Definition spark_axes (ylim : option (Q * Q)) (l : list artist) : Axes :=
  {| ax_rect := (0, 0, 1, 1)%Q; axison := false; ax_artists := l; ax_ylim := ylim;
     spines_visible := false; xticks := Some []; yticks := Some [] |}.

(** The picture of a sparkline as the encoder returns it. *)
Definition spark_html (print_png : Figure → list Axes → string) (b64encode : string → string)
    (size : Q * Q) (ax : nat) (ylim : option (Q * Q)) (caption : option string)
    (l : list artist) : string :=
  with_caption caption (img_tag (b64encode (print_png (spark_figure size ax) [spark_axes ylim l]))).

(** * Properties *)

(** ** The number humanizer *)

Section rounding_facts.

(** [round_half_even] is a nearest integer. *)
Lemma round_half_even_nearest (q : Q) :
  (Qabs (inject_Z (round_half_even q) - q) <= 1 # 2)%Q.
Proof.
  unfold round_half_even.
  pose proof (Qfloor_le q) as Hlo. pose proof (Qlt_floor q) as Hhi.
  rewrite inject_Z_plus in Hhi. change (inject_Z 1) with 1%Q in Hhi.
  apply Qabs_Qle_condition.
  destruct (Qcompare (q - inject_Z (Qfloor q)) (1 # 2)) eqn:E.
  - apply Qeq_alt in E.
    destruct (Z.even (Qfloor q)); [| rewrite inject_Z_plus; change (inject_Z 1) with 1%Q];
      split; lra.
  - apply Qlt_alt in E. split; lra.
  - apply Qgt_alt in E. rewrite inject_Z_plus. change (inject_Z 1) with 1%Q. split; lra.
Qed.

(** On a tie it is the even one. *)
Lemma round_half_even_tie (q : Q) :
  (q - inject_Z (Qfloor q) == 1 # 2)%Q → Z.even (round_half_even q) = true.
Proof.
  intros H. unfold round_half_even. apply Qeq_alt in H. rewrite H.
  destruct (Z.even (Qfloor q)) eqn:E; [exact E |].
  rewrite Z.even_add, E. reflexivity.
Qed.

End rounding_facts.

Section millify_facts.

Local Open Scope Z_scope.

Lemma pow2_le_pow1000 (n : nat) : 2 ^ Z.of_nat n ≤ 1000 ^ Z.of_nat n.
Proof. apply Z.pow_le_mono_l; lia. Qed.

Lemma lt_pow1000_log2 (a : Z) : 0 < a → a < 1000 ^ Z.of_nat (S (Z.to_nat (Z.log2 a))).
Proof.
  intros Ha.
  pose proof (Z.log2_nonneg a) as Hl.
  pose proof (Z.log2_spec a Ha) as [_ Hu].
  pose proof (pow2_le_pow1000 (S (Z.to_nat (Z.log2 a)))) as Hp.
  replace (Z.of_nat (S (Z.to_nat (Z.log2 a)))) with (Z.succ (Z.log2 a)) in * by lia.
  lia.
Qed.

(** With enough fuel, [log1000_up] is the exponent of the largest power of
    1000 that fits. *)
Lemma log1000_up_spec (fuel : nat) (a b : Z) :
  0 < b → b ≤ a → a < b * 1000 ^ Z.of_nat fuel →
  let k := math.log1000_up fuel a b in
  0 ≤ k ∧ 1000 ^ k * b ≤ a ∧ a < 1000 ^ (k + 1) * b.
Proof.
  revert b. induction fuel as [| fuel IH]; intros b Hb Hba Hfuel; cbn zeta.
  - cbn in Hfuel. lia.
  - cbn [math.log1000_up].
    destruct (Z.leb_spec (1000 * b) a) as [Hle | Hgt].
    + assert (Hf : a < 1000 * b * 1000 ^ Z.of_nat fuel).
      { rewrite Nat2Z.inj_succ, Z.pow_succ_r in Hfuel by lia. lia. }
      destruct (IH (1000 * b) ltac:(lia) Hle Hf) as (Hk & Hlo & Hhi).
      set (k := math.log1000_up fuel a (1000 * b)) in *.
      split; [lia |].
      replace (1 + k) with (Z.succ k) by lia.
      replace (Z.succ k + 1) with (Z.succ (k + 1)) by lia.
      rewrite !Z.pow_succ_r by lia. lia.
    + change (1000 ^ 0) with 1. change (1000 ^ (0 + 1)) with 1000. lia.
Qed.

(** With enough fuel, [log1000_down] is negative, and its opposite is the
    least exponent [j] with [b <= a * 1000^j]. *)
Lemma log1000_down_spec (fuel : nat) (a b : Z) :
  0 < a → a < b → b ≤ a * 1000 ^ Z.of_nat fuel →
  let j := - math.log1000_down fuel a b in
  1 ≤ j ∧ a * 1000 ^ (j - 1) < b ∧ b ≤ a * 1000 ^ j.
Proof.
  revert a. induction fuel as [| fuel IH]; intros a Ha Hab Hfuel; cbn zeta.
  - cbn in Hfuel. lia.
  - cbn [math.log1000_down].
    destruct (Z.leb_spec b (1000 * a)) as [Hle | Hgt].
    + change (- -1) with 1. change (1000 ^ (1 - 1)) with 1. change (1000 ^ 1) with 1000. lia.
    + assert (Hf : b ≤ 1000 * a * 1000 ^ Z.of_nat fuel).
      { rewrite Nat2Z.inj_succ, Z.pow_succ_r in Hfuel by lia. lia. }
      destruct (IH (1000 * a) ltac:(lia) Hgt Hf) as (Hj & Hlo & Hhi).
      set (j := - math.log1000_down fuel (1000 * a) b) in *.
      replace (- (-1 + math.log1000_down fuel (1000 * a) b)) with (Z.succ j) by lia.
      split; [lia |].
      replace (Z.succ j - 1) with (Z.succ (j - 1)) by lia.
      rewrite !Z.pow_succ_r by lia. lia.
Qed.

(** Below 1 the logarithm is negative. *)
Lemma floor_log1000_small (q : Q) : (0 < q)%Q → (q < 1)%Q → math.floor_log1000 q < 0.
Proof.
  destruct q as [a b]. unfold Qlt; cbn. intros Ha Hq.
  unfold math.floor_log1000; cbn [Qnum Qden].
  destruct (Z.leb_spec (Z.pos b) a) as [Hle | Hgt]; [lia |].
  assert (Hfuel : Z.pos b ≤ a * 1000 ^ Z.of_nat (S (Z.to_nat (Z.log2 (Z.pos b))))).
  { pose proof (lt_pow1000_log2 (Z.pos b) ltac:(lia)). nia. }
  pose proof (log1000_down_spec _ a (Z.pos b) ltac:(lia) Hgt Hfuel) as (Hj & _).
  cbn zeta in Hj. lia.
Qed.

(** From 1 on, the logarithm is the [k >= 0] with
    [1000^k <= q < 1000^(k+1)]. *)
Lemma floor_log1000_large (q : Q) :
  (1 <= q)%Q →
  let k := math.floor_log1000 q in
  0 ≤ k ∧ (inject_Z (1000 ^ k) <= q)%Q ∧ (q < inject_Z (1000 ^ (k + 1)))%Q.
Proof.
  destruct q as [a b]. unfold Qle, Qlt; cbn. intros Hq.
  unfold math.floor_log1000; cbn [Qnum Qden].
  destruct (Z.leb_spec (Z.pos b) a) as [Hle | Hgt]; [| lia].
  assert (Hfuel : a < Z.pos b * 1000 ^ Z.of_nat (S (Z.to_nat (Z.log2 a)))).
  { pose proof (lt_pow1000_log2 a ltac:(lia)). nia. }
  pose proof (log1000_up_spec _ a (Z.pos b) ltac:(lia) Hle Hfuel) as (Hk & Hlo & Hhi).
  cbn zeta in *. repeat split; [lia | lia | lia].
Qed.

(** The bounds determine the exponent. *)
Lemma pow1000_bounds_unique (q : Q) (k k' : Z) :
  0 ≤ k → 0 ≤ k' →
  (inject_Z (1000 ^ k) <= q)%Q → (q < inject_Z (1000 ^ (k + 1)))%Q →
  (inject_Z (1000 ^ k') <= q)%Q → (q < inject_Z (1000 ^ (k' + 1)))%Q →
  k = k'.
Proof.
  intros Hk Hk' Hlo Hhi Hlo' Hhi'.
  assert (H1 : (inject_Z (1000 ^ k) < inject_Z (1000 ^ (k' + 1)))%Q) by (eapply Qle_lt_trans; eauto).
  assert (H2 : (inject_Z (1000 ^ k') < inject_Z (1000 ^ (k + 1)))%Q) by (eapply Qle_lt_trans; eauto).
  rewrite <- Zlt_Qlt in H1, H2.
  apply Z.pow_lt_mono_r_iff in H1; [| lia | lia].
  apply Z.pow_lt_mono_r_iff in H2; [| lia | lia].
  lia.
Qed.

End millify_facts.

Lemma Qlt_bool_iff (x y : Q) : Qlt_bool x y = true ↔ (x < y)%Q.
Proof.
  unfold Qlt_bool. rewrite negb_true_iff.
  split.
  - intros H. apply Qnot_le_lt. intros Hle. apply Qle_bool_iff in Hle. congruence.
  - intros H. destruct (Qle_bool y x) eqn:E; [| reflexivity].
    apply Qle_bool_iff in E. exfalso. exact (Qlt_not_le _ _ H E).
Qed.

Lemma Qlt_bool_false_iff (x y : Q) : Qlt_bool x y = false ↔ (y <= x)%Q.
Proof.
  unfold Qlt_bool. rewrite negb_false_iff. apply Qle_bool_iff.
Qed.

Lemma Qeq_bool_false_iff (x y : Q) : Qeq_bool x y = false ↔ ¬ (x == y)%Q.
Proof.
  split.
  - intros H Heq. apply Qeq_bool_iff in Heq. congruence.
  - intros H. destruct (Qeq_bool x y) eqn:E; [| reflexivity].
    apply Qeq_bool_iff in E. contradiction.
Qed.

Section millify_theorems.

Local Open Scope Z_scope.

Lemma pow10_pow1000 (t : Z) : 0 ≤ t → 10 ^ (3 * t) = 1000 ^ t.
Proof. intros Ht. rewrite Z.pow_mul_r by lia. reflexivity. Qed.

Lemma millidx_finite (q : Q) : viz.millidx (Finite q) = Ok (tier_of q).
Proof.
  unfold viz.millidx, tier_of. cbn [float.eqb float.abs math.floor_log10_div3].
  destruct (Qeq_bool q 0) eqn:E.
  - reflexivity.
  - assert (Hpos : Qlt_bool 0 (Qabs q) = true).
    { apply Qlt_bool_iff. apply Qeq_bool_false_iff in E.
      destruct (Qle_lt_or_eq _ _ (Qabs_nonneg q)) as [H | H]; [exact H |].
      exfalso. apply E. symmetry in H. destruct q as [a b].
      unfold Qeq in *; cbn in *. lia. }
    rewrite Hpos. reflexivity.
Qed.

Lemma tier_of_range (q : Q) : 0 ≤ tier_of q ≤ 8.
Proof. unfold tier_of. destruct (Qeq_bool q 0); lia. Qed.

Lemma tier_of_below_1000 (q : Q) : (Qabs q < 1000)%Q → tier_of q = 0.
Proof.
  intros Hq. unfold tier_of. destruct (Qeq_bool q 0) eqn:E; [reflexivity |].
  destruct (Qlt_le_dec (Qabs q) 1) as [Hs | Hl].
  - assert (Hpos : (0 < Qabs q)%Q).
    { apply Qeq_bool_false_iff in E.
      destruct (Qle_lt_or_eq _ _ (Qabs_nonneg q)) as [H | H]; [exact H |].
      exfalso. apply E. symmetry in H. destruct q as [a b].
      unfold Qeq in *; cbn in *. lia. }
    pose proof (floor_log1000_small _ Hpos Hs). lia.
  - destruct (floor_log1000_large _ Hl) as (Hk & Hlo & _). cbn zeta in *.
    set (k := math.floor_log1000 (Qabs q)) in *.
    destruct (Z.eq_dec k 0) as [-> | Hne]; [reflexivity |].
    exfalso.
    assert (H1 : (inject_Z (1000 ^ 1) <= inject_Z (1000 ^ k))%Q).
    { rewrite <- Zle_Qle. apply Z.pow_le_mono_r; lia. }
    apply (Qlt_irrefl (Qabs q)).
    eapply Qlt_le_trans; [exact Hq |].
    eapply Qle_trans; [exact H1 | exact Hlo].
Qed.

Lemma tier_of_between (q : Q) (k : Z) :
  0 ≤ k →
  (inject_Z (1000 ^ k) <= Qabs q)%Q → (Qabs q < inject_Z (1000 ^ (k + 1)))%Q →
  tier_of q = Z.min 8 k.
Proof.
  intros Hk Hlo Hhi. unfold tier_of.
  assert (H1 : (1 <= Qabs q)%Q).
  { eapply Qle_trans; [| exact Hlo].
    change 1%Q with (inject_Z 1). rewrite <- Zle_Qle.
    pose proof (Z.pow_pos_nonneg 1000 k ltac:(lia) Hk). lia. }
  destruct (Qeq_bool q 0) eqn:E.
  { apply Qeq_bool_iff in E. exfalso.
    rewrite E in H1. vm_compute in H1. apply H1. reflexivity. }
  destruct (floor_log1000_large _ H1) as (Hk' & Hlo' & Hhi'). cbn zeta in *.
  rewrite (pow1000_bounds_unique (Qabs q) k (math.floor_log1000 (Qabs q))) by assumption.
  lia.
Qed.

Lemma tier_of_top (q : Q) : (inject_Z (1000 ^ 8) <= Qabs q)%Q → tier_of q = 8.
Proof.
  intros Hq. unfold tier_of.
  assert (H1 : (1 <= Qabs q)%Q).
  { eapply Qle_trans; [| exact Hq]. vm_compute. discriminate. }
  destruct (Qeq_bool q 0) eqn:E.
  { apply Qeq_bool_iff in E. exfalso.
    rewrite E in H1. vm_compute in H1. apply H1. reflexivity. }
  destruct (floor_log1000_large _ H1) as (Hk' & Hlo' & Hhi'). cbn zeta in *.
  set (k := math.floor_log1000 (Qabs q)) in *.
  assert (8 ≤ k); [| lia].
  destruct (Z.le_gt_cases 8 k) as [H | H]; [exact H | exfalso].
  assert (H2 : (inject_Z (1000 ^ (k + 1)) <= inject_Z (1000 ^ 8))%Q).
  { rewrite <- Zle_Qle. apply Z.pow_le_mono_r; lia. }
  apply (Qlt_irrefl (Qabs q)).
  eapply Qlt_le_trans; [exact Hhi' |].
  eapply Qle_trans; [exact H2 | exact Hq].
Qed.

Lemma millify_finite (q : Q) (precision : Z) :
  0 ≤ precision →
  viz.millify (Finite q) precision =
    Ok (format_fixed (q / inject_Z (1000 ^ tier_of q)) (Z.to_nat precision)
          +:+ viz.millnames !!! Z.to_nat (tier_of q)).
Proof.
  intros Hp. unfold viz.millify. rewrite millidx_finite.
  unfold format_f. destruct (Z.ltb_spec precision 0) as [? | _]; [lia |].
  cbn [float.div_by]. rewrite pow10_pow1000 by apply tier_of_range.
  reflexivity.
Qed.

End millify_theorems.

Section millify_sign.

Local Open Scope Z_scope.

Lemma Qabs_opp_eq (q : Q) : Qabs (- q) = Qabs q.
Proof. destruct q as [a b]. unfold Qabs, Qopp. cbn. rewrite Z.abs_opp. reflexivity. Qed.

Lemma Qabs_div_opp_eq (q d : Q) : Qabs (- q / d) = Qabs (q / d).
Proof.
  destruct q as [a b], d as [c e]. unfold Qdiv, Qmult, Qabs, Qopp, Qinv. cbn.
  destruct c; cbn; rewrite ?Z.mul_opp_l, ?Z.abs_opp; reflexivity.
Qed.

Lemma tier_of_opp (q : Q) : tier_of (- q) = tier_of q.
Proof.
  unfold tier_of. rewrite Qabs_opp_eq.
  replace (Qeq_bool (- q) 0) with (Qeq_bool q 0); [reflexivity |].
  destruct q as [a b]. unfold Qeq_bool, Qopp. cbn.
  destruct a; reflexivity.
Qed.

Lemma Qdiv_pow1000_sign (q : Q) (t : Z) :
  0 ≤ t → (0 < q)%Q →
  Qlt_bool (q / inject_Z (1000 ^ t)) 0 = false ∧
  Qlt_bool (- q / inject_Z (1000 ^ t)) 0 = true.
Proof.
  intros Ht Hq.
  pose proof (Z.pow_pos_nonneg 1000 t ltac:(lia) Ht) as Hpos.
  destruct (1000 ^ t) as [| P | P] eqn:E; try lia.
  destruct q as [a b]. unfold Qlt in Hq. cbn in Hq.
  split.
  - apply Qlt_bool_false_iff. unfold Qle, Qdiv, Qmult, Qinv, inject_Z. cbn. lia.
  - apply Qlt_bool_iff. unfold Qlt, Qdiv, Qmult, Qinv, Qopp, inject_Z. cbn. lia.
Qed.

(** The sign survives the division and the formatting: a negative number is
    rendered as ["-"] followed by the rendering of its absolute value. *)
Lemma millify_negative (q : Q) (precision : Z) :
  0 ≤ precision → (0 < q)%Q →
  ∃ s, viz.millify (Finite q) precision = Ok s ∧
       viz.millify (Finite (- q)) precision = Ok ("-" +:+ s).
Proof.
  intros Hp Hq. rewrite !millify_finite by assumption.
  rewrite tier_of_opp.
  destruct (Qdiv_pow1000_sign q (tier_of q) (proj1 (tier_of_range q)) Hq) as [Hpos Hneg].
  eexists; split; [reflexivity |].
  unfold format_fixed. rewrite Hpos, Hneg, Qabs_div_opp_eq.
  reflexivity.
Qed.

End millify_sign.



(** ** Running code in a world *)

(** A step that returns hands its value and its world to the rest. *)
Lemma bind_ok {A B} (m : M A) (k : A → M B) (w w' : world) (a : A) :
  m w = (Ok a, w') → (m ≫= k) w = k a w'.
Proof. intros H. unfold mbind, M_bind. rewrite H. reflexivity. Qed.

(** A step that raises ends the run, in the world it left. *)
Lemma bind_raise {A B} (m : M A) (k : A → M B) (w w' : world) (e : exn) :
  m w = (Raise e, w') → (m ≫= k) w = (Raise e, w').
Proof. intros H. unfold mbind, M_bind. rewrite H. reflexivity. Qed.

(** [step by t]: run the first statement of the code in the goal, [t] showing
    what it returns. *)
Tactic Notation "step" "by" tactic(t) := erewrite bind_ok; [| t].

Section running.

Lemma update_axes_run (ax : nat) (f : Axes → Axes) (w : world) :
  update_axes ax f w = (Ok (), set_axs (λ m, <[ax := f (m !!! ax)]> m) w).
Proof. reflexivity. Qed.

Lemma add_artists_app (l1 l2 : list artist) (a : Axes) :
  add_artists l2 (add_artists l1 a) = add_artists (l1 ++ l2) a.
Proof. unfold add_artists. cbn. rewrite app_assoc. reflexivity. Qed.

Lemma add_artists_nil (a : Axes) : add_artists [] a = a.
Proof. destruct a. unfold add_artists. cbn. rewrite app_nil_r. reflexivity. Qed.

Lemma draw_on_draw_on (ax : nat) (l1 l2 : list artist) (w : world) :
  draw_on ax l2 (draw_on ax l1 w) = draw_on ax (l1 ++ l2) w.
Proof.
  unfold draw_on, set_axs. cbn. f_equal.
  rewrite lookup_total_insert_eq, insert_insert_eq, add_artists_app. reflexivity.
Qed.

Lemma current_axes_draw_on (ax ax' : nat) (l : list artist) (w : world) :
  current_axes w ax → current_axes (draw_on ax' l w) ax.
Proof. intros H. exact H. Qed.

Lemma gca_current (w : world) (ax : nat) : current_axes w ax → plt.gca w = (Ok ax, w).
Proof.
  intros (fig & Hfig & Hax). unfold plt.gca.
  step by (unfold plt.gcf; rewrite Hfig; reflexivity).
  step by reflexivity.
  rewrite Hax. reflexivity.
Qed.

(** [plt.gca()] never raises, and answers the same axes from then on. *)
Lemma gca_spec (w : world) :
  ∃ ax w0, plt.gca w = (Ok ax, w0) ∧ current_axes w0 ax ∧
           Series_attrs w0 = Series_attrs w ∧ (Gcf w ≠ [] → Gcf w0 = Gcf w).
Proof.
  unfold plt.gca, plt.gcf.
  destruct (last (Gcf w)) as [fig |] eqn:Hlast.
  - step by (rewrite Hlast; reflexivity).
    step by reflexivity.
    destruct (last (fig_axes (figs w !!! fig))) as [ax |] eqn:Hax.
    + exists ax, w. repeat split; [| done..]. exists fig. done.
    + eexists _, _. split; [reflexivity |]. split; [| done].
      exists fig. split; [exact Hlast |]. cbn.
      rewrite lookup_total_insert_eq. cbn. apply last_snoc.
  - step by (rewrite Hlast; reflexivity).
    step by reflexivity.
    cbn. rewrite lookup_total_insert_eq. cbn.
    eexists _, _. split; [reflexivity |]. split.
    + eexists. split; [cbn; apply last_snoc |]. cbn.
      rewrite !lookup_total_insert_eq. cbn. reflexivity.
    + split; [reflexivity |]. intros Hne. apply last_None in Hlast. contradiction.
Qed.

Lemma draws_draw_on (m : M nat) (w w0 : world) (ax : nat) (l : list artist) :
  plt.gca w = (Ok ax, w0) → m w = (Ok ax, draw_on ax l w0) → draws m w l.
Proof.
  intros Hg Hm. exists ax, w0, (draw_on ax l w0).
  split; [exact Hg |]. split; [exact Hm |].
  unfold draw_on, set_axs; cbn.
  split; [apply lookup_total_insert_eq |].
  split; [| done].
  intros ax' Hne. apply lookup_insert_ne. congruence.
Qed.

Lemma draws_nothing (m : M nat) (w w0 : world) (ax : nat) :
  plt.gca w = (Ok ax, w0) → m w = (Ok ax, w0) → draws m w [].
Proof.
  intros Hg Hm. exists ax, w0, w0.
  split; [exact Hg |]. split; [exact Hm |].
  split; [symmetry; apply add_artists_nil | done].
Qed.

(** What a renderer draws is determined by the renderer and the world. *)
Lemma draws_det (m : M nat) (w : world) (l1 l2 : list artist) :
  draws m w l1 → draws m w l2 → l1 = l2.
Proof.
  intros (ax & w0 & w' & Hg & Hm & Ha & _) (ax2 & w02 & w2' & Hg2 & Hm2 & Ha2 & _).
  rewrite Hg in Hg2. injection Hg2 as <- <-.
  rewrite Hm in Hm2. injection Hm2 as <-.
  rewrite Ha in Ha2. unfold add_artists in Ha2.
  injection Ha2 as Heq. exact (app_inv_head _ _ _ Heq).
Qed.

Lemma draws_artists_of (m : M nat) (w : world) (l : list artist) :
  draws m w l →
  ∃ ax w0 w', plt.gca w = (Ok ax, w0) ∧ m w = (Ok ax, w') ∧
              artists_of w' ax = artists_of w0 ax ++ l.
Proof.
  intros (ax & w0 & w' & Hg & Hm & Ha & _). exists ax, w0, w'.
  split; [exact Hg |]. split; [exact Hm |].
  unfold artists_of. rewrite Ha. reflexivity.
Qed.

End running.

(** ** The donut *)

Section donut_facts.

Variables (label : option string) (color : string) (wedgewidth : Q).

Lemma pie_run (x : list pyfloat) (startangle : Q) (counterclock : bool) (width : Q)
    (ec : Color) (lw alpha : Q) (colors : list Color) (w : world) (ax : nat) :
  current_axes w ax →
  plt.pie x startangle counterclock width ec lw alpha colors w =
    (Ok (), draw_on ax
       (zip_with (λ v c, AWedge {| wedge_x := v; wedge_color := c;
                                   wedge_startangle := startangle;
                                   wedge_counterclock := counterclock; wedge_width := width;
                                   wedge_ec := ec; wedge_lw := lw; wedge_alpha := alpha |})
          x colors) w).
Proof.
  intros Hc. unfold plt.pie. step by (apply gca_current, Hc). reflexivity.
Qed.

Lemma text_run (x y : Q) (s ha va : string) (fontsize : Q) (w : world) (ax : nat) :
  current_axes w ax →
  plt.text x y s ha va fontsize w =
    (Ok (), draw_on ax [AText {| text_x := x; text_y := y; text_s := s; text_ha := ha;
                                 text_va := va; text_fontsize := fontsize |}] w).
Proof.
  intros Hc. unfold plt.text. step by (apply gca_current, Hc). reflexivity.
Qed.

(** [perc == 1.0]: one wedge, then the label. *)
Lemma donut_full (q : Q) (w : world) :
  (q == 1)%Q →
  draws (viz.donut (Finite q) label color wedgewidth) w
    [AWedge (donut_wedge (Finite q) (Named color) wedgewidth 1); AText (donut_text label)].
Proof.
  intros Hq. destruct (gca_spec w) as (ax & w0 & Hg & Hc & _).
  eapply draws_draw_on; [exact Hg |].
  unfold viz.donut. step by exact Hg.
  assert (E1 : float.eqb (Finite q) (Finite 1) = true) by (apply Qeq_bool_iff, Hq).
  assert (E2 : float.gtb (Finite q) (Finite 0) = true).
  { apply Qlt_bool_iff. rewrite Hq. reflexivity. }
  rewrite E1, E2.
  step by (apply pie_run, Hc).
  step by (apply text_run, current_axes_draw_on, Hc).
  rewrite draw_on_draw_on. reflexivity.
Qed.

(** [perc == 0.0]: one white wedge at half opacity, then the label. *)
Lemma donut_empty (q : Q) (w : world) :
  (q == 0)%Q →
  draws (viz.donut (Finite q) label color wedgewidth) w
    [AWedge (donut_wedge (Finite 1) (Named "white") wedgewidth (1 # 2));
     AText (donut_text label)].
Proof.
  intros Hq. destruct (gca_spec w) as (ax & w0 & Hg & Hc & _).
  eapply draws_draw_on; [exact Hg |].
  unfold viz.donut. step by exact Hg.
  assert (E1 : float.eqb (Finite q) (Finite 1) = false).
  { apply Qeq_bool_false_iff. rewrite Hq. discriminate. }
  assert (E0 : float.eqb (Finite q) (Finite 0) = true) by (apply Qeq_bool_iff, Hq).
  assert (E2 : float.gtb (Finite q) (Finite 0) = false).
  { apply Qlt_bool_false_iff. rewrite Hq. apply Qle_refl. }
  rewrite E1, E0, E2.
  step by (apply pie_run, Hc).
  step by (apply text_run, current_axes_draw_on, Hc).
  rewrite draw_on_draw_on. reflexivity.
Qed.

(** [0 < perc < 1]: two wedges, then the label. *)
Lemma donut_partial (q : Q) (w : world) :
  (0 < q)%Q → (q < 1)%Q →
  draws (viz.donut (Finite q) label color wedgewidth) w
    [AWedge (donut_wedge (Finite q) (Named color) wedgewidth 1);
     AWedge (donut_wedge (Finite (1 - q)) (Named "white") wedgewidth 1);
     AText (donut_text label)].
Proof.
  intros H0 H1. destruct (gca_spec w) as (ax & w0 & Hg & Hc & _).
  eapply draws_draw_on; [exact Hg |].
  unfold viz.donut. step by exact Hg.
  assert (E1 : float.eqb (Finite q) (Finite 1) = false).
  { apply Qeq_bool_false_iff. intros E. rewrite E in H1. exact (Qlt_irrefl _ H1). }
  assert (E0 : float.eqb (Finite q) (Finite 0) = false).
  { apply Qeq_bool_false_iff. intros E. rewrite E in H0. exact (Qlt_irrefl _ H0). }
  assert (L0 : float.ltb (Finite 0) (Finite q) = true) by (apply Qlt_bool_iff, H0).
  assert (L1 : float.ltb (Finite q) (Finite 1) = true) by (apply Qlt_bool_iff, H1).
  assert (E2 : float.gtb (Finite q) (Finite 0) = true) by exact L0.
  rewrite E1, E0, L0, L1, E2. cbn [andb].
  step by (apply pie_run, Hc).
  step by (apply text_run, current_axes_draw_on, Hc).
  rewrite draw_on_draw_on. reflexivity.
Qed.

(** Outside [[0, 1]] every test fails and [donut] returns at once. *)
Lemma donut_outside (perc : pyfloat) (w : world) :
  outside_unit_interval perc →
  draws (viz.donut perc label color wedgewidth) w [].
Proof.
  intros Hout. destruct (gca_spec w) as (ax & w0 & Hg & Hc & _).
  eapply draws_nothing; [exact Hg |].
  unfold viz.donut. step by exact Hg.
  destruct perc as [q | | |]; cbn in Hout; cbn [float.eqb float.ltb andb]; try reflexivity.
  assert (E1 : Qeq_bool q 1 = false).
  { apply Qeq_bool_false_iff. intros E. rewrite E in Hout.
    destruct Hout as [H | H]; [discriminate H | exact (Qlt_irrefl _ H)]. }
  assert (E0 : Qeq_bool q 0 = false).
  { apply Qeq_bool_false_iff. intros E. rewrite E in Hout.
    destruct Hout as [H | H]; [exact (Qlt_irrefl _ H) | discriminate H]. }
  assert (L : Qlt_bool 0 q && Qlt_bool q 1 = false).
  { apply andb_false_iff. destruct Hout as [H | H].
    - left. apply Qlt_bool_false_iff. apply Qlt_le_weak, H.
    - right. apply Qlt_bool_false_iff. apply Qlt_le_weak, H. }
  rewrite E1, E0, L. reflexivity.
Qed.

End donut_facts.

Lemma unit_interval_cases (perc : pyfloat) :
  (∃ q, perc = Finite q ∧ ((q == 1)%Q ∨ (q == 0)%Q ∨ ((0 < q)%Q ∧ (q < 1)%Q))) ∨
  outside_unit_interval perc.
Proof.
  destruct perc as [q | | |]; try (right; exact I).
  destruct (Qlt_le_dec q 0) as [Hneg | Hnn]; [right; left; exact Hneg |].
  destruct (Qlt_le_dec 1 q) as [Hbig | Hle]; [right; right; exact Hbig |].
  left. exists q. split; [reflexivity |].
  destruct (Qle_lt_or_eq _ _ Hle) as [Hlt | Heq]; [| left; exact Heq].
  destruct (Qle_lt_or_eq _ _ Hnn) as [Hpos | Heq0]; [| right; left; symmetry; exact Heq0].
  right; right. split; assumption.
Qed.






(** ** The missing bar chart *)

Section missing_bar_facts.

Lemma lookup_arange (n i : nat) : (i < n)%nat → np.arange n !! i = Some (Z.of_nat i).
Proof.
  intros Hi. unfold np.arange. rewrite list_lookup_fmap, lookup_seq_lt by exact Hi.
  reflexivity.
Qed.

Lemma lookup_arange_ge (n i : nat) : (n ≤ i)%nat → np.arange n !! i = None.
Proof.
  intros Hi. unfold np.arange. rewrite list_lookup_fmap, lookup_seq_ge by exact Hi.
  reflexivity.
Qed.

Lemma background_bars (ser : list pyfloat) :
  zip_with (λ xh bc, ARect {| rect_x := xh.1; rect_width := 1; rect_height := xh.2;
                              rect_bottom := bc.1; rect_color := bc.2;
                              rect_alpha := Some (1 # 10) |})
    (zip (np.arange (length ser)) (map (float.sub (Finite 1)) ser))
    (zip (replicate (length ser) (Finite 0)) (replicate (length ser) (tab20c 3)))
  = imap background_bar ser.
Proof.
  apply list_eq. intros i.
  rewrite !lookup_zip_with, list_lookup_imap, list_lookup_fmap.
  destruct (ser !! i) as [v |] eqn:Hv.
  - pose proof (lookup_lt_Some _ _ _ Hv) as Hi.
    rewrite lookup_arange, !lookup_replicate_2 by exact Hi. reflexivity.
  - pose proof (proj1 (lookup_ge_None _ _) Hv) as Hi.
    rewrite lookup_arange_ge by exact Hi. reflexivity.
Qed.

Lemma foreground_bars (ser : list pyfloat) :
  zip_with (λ xh bc, ARect {| rect_x := xh.1; rect_width := 1; rect_height := xh.2;
                              rect_bottom := bc.1; rect_color := bc.2;
                              rect_alpha := None |})
    (zip (np.arange (length ser)) ser)
    (zip (map (float.sub (Finite 1)) ser)
         (map (λ val, if float.eqb val (Finite 1) then Reds (Finite (7 # 10))
                      else Reds (Finite (1 # 10))) ser))
  = imap foreground_bar ser.
Proof.
  apply list_eq. intros i.
  rewrite !lookup_zip_with, list_lookup_imap, !list_lookup_fmap.
  destruct (ser !! i) as [v |] eqn:Hv.
  - pose proof (lookup_lt_Some _ _ _ Hv) as Hi.
    rewrite lookup_arange by exact Hi. reflexivity.
  - pose proof (proj1 (lookup_ge_None _ _) Hv) as Hi.
    rewrite lookup_arange_ge by exact Hi. reflexivity.
Qed.

(** [missing_bar] draws the background layer, then the foreground layer. *)
Lemma missing_bar_draws (ser : list pyfloat) (w : world) :
  draws (viz.missing_bar ser) w (imap background_bar ser ++ imap foreground_bar ser).
Proof.
  destruct (gca_spec w) as (ax & w0 & Hg & Hc & _).
  eapply draws_draw_on; [exact Hg |].
  unfold viz.missing_bar. step by exact Hg.
  unfold plt.bar.
  step by apply update_axes_run.
  step by apply update_axes_run.
  rewrite background_bars, foreground_bars.
  fold (draw_on ax (imap background_bar ser) w0).
  fold (draw_on ax (imap foreground_bar ser) (draw_on ax (imap background_bar ser) w0)).
  rewrite draw_on_draw_on. reflexivity.
Qed.

End missing_bar_facts.

(** The claim of C7 fails on the column [[0, 1]] read as a presence series:
    position 0 is fully missing, and its foreground bar has the low
    saturation [Reds(0.1)] (and no height); position 1 is fully present, and
    its foreground bar has the high saturation [Reds(0.7)]. *)
Lemma missing_bar_saturation_at_presence :
  ∃ bg f0 f1,
    draws (viz.missing_bar [Finite 0; Finite 1]) initial_world (bg ++ [ARect f0; ARect f1]) ∧
    length bg = 2%nat ∧
    rect_x f0 = 0 ∧ rect_color f0 = Reds (Finite (1 # 10)) ∧ rect_height f0 = Finite 0 ∧
    rect_x f1 = 1 ∧ rect_color f1 = Reds (Finite (7 # 10)) ∧
    rect_color f0 ≠ Reds (Finite (7 # 10)).
Proof.
  eexists _, _, _. split; [apply (missing_bar_draws [Finite 0; Finite 1] initial_world) |].
  cbn. repeat split; try reflexivity. discriminate.
Qed.

(** C7, as the code has it.  For every numeric column [missing_bar] draws one
    pair of bars per element, the background layer first: at position [i],
    for the value [v], a background bar of height [1 - v] from 0, at opacity
    0.1; and a foreground bar of height [v] on top of it, from [1 - v],
    coloured [Reds(0.7)] exactly when [v == 1.0] and [Reds(0.1)] otherwise.
    The strong red thus marks the positions whose value is 1. *)
Theorem missing_bar_layers (ser : list pyfloat) (w : world) :
  ∃ bg fg,
    draws (viz.missing_bar ser) w (bg ++ fg) ∧
    length bg = length ser ∧ length fg = length ser ∧
    ∀ i v, ser !! i = Some v →
      ∃ b f,
        bg !! i = Some (ARect b) ∧ fg !! i = Some (ARect f) ∧
        rect_x b = Z.of_nat i ∧ rect_height b = float.sub (Finite 1) v ∧
        rect_bottom b = Finite 0 ∧ rect_alpha b = Some (1 # 10)%Q ∧
        rect_color b = tab20c 3 ∧
        rect_x f = Z.of_nat i ∧ rect_height f = v ∧
        rect_bottom f = float.sub (Finite 1) v ∧ rect_alpha f = None ∧
        (rect_color f = Reds (Finite (7 # 10)) ↔ float.eqb v (Finite 1) = true) ∧
        (rect_color f = Reds (Finite (1 # 10)) ↔ float.eqb v (Finite 1) = false).
Proof.
  exists (imap background_bar ser), (imap foreground_bar ser).
  split; [apply missing_bar_draws |].
  split; [apply length_imap |]. split; [apply length_imap |].
  intros i v Hv. eexists _, _.
  split; [rewrite list_lookup_imap, Hv; reflexivity |].
  split; [rewrite list_lookup_imap, Hv; reflexivity |].
  cbn. repeat split; try reflexivity;
    destruct (float.eqb v (Finite 1)); intros H; (reflexivity || discriminate H).
Qed.

Lemma missing_bar_layers_witness :
  ∃ bg fg,
    draws (viz.missing_bar [Finite 1; Finite (1 # 4)]) initial_world (bg ++ fg) ∧
    length bg = 2%nat ∧ length fg = 2%nat ∧
    ∃ b f,
      bg !! 1%nat = Some (ARect b) ∧ fg !! 1%nat = Some (ARect f) ∧
      rect_x b = 1 ∧ rect_height b = float.sub (Finite 1) (Finite (1 # 4)) ∧
      rect_bottom b = Finite 0 ∧ rect_alpha b = Some (1 # 10)%Q ∧
      rect_color b = tab20c 3 ∧
      rect_x f = 1 ∧ rect_height f = Finite (1 # 4) ∧
      rect_bottom f = float.sub (Finite 1) (Finite (1 # 4)) ∧ rect_alpha f = None ∧
      (rect_color f = Reds (Finite (7 # 10)) ↔ float.eqb (Finite (1 # 4)) (Finite 1) = true) ∧
      (rect_color f = Reds (Finite (1 # 10)) ↔ float.eqb (Finite (1 # 4)) (Finite 1) = false).
Proof.
  destruct (missing_bar_layers [Finite 1; Finite (1 # 4)] initial_world)
    as (bg & fg & Hd & Hb & Hf & Hall).
  exists bg, fg. split; [exact Hd |]. split; [exact Hb |]. split; [exact Hf |].
  apply (Hall 1%nat (Finite (1 # 4))). reflexivity.
Defined.

(** ** Grouping rows by a non-decreasing key *)

Section groupby_facts.

Lemma groupby_snoc (ks : list Z) (k : Z) :
  pd.groupby (ks ++ [k]) = pd.group_insert k (length ks) (pd.groupby ks).
Proof.
  unfold pd.groupby. rewrite imap_app, fold_left_app. cbn.
  rewrite Nat.add_0_r. reflexivity.
Qed.

(** A key that is not below any key seen so far joins the last group or
    opens a new last group. *)
Lemma group_insert_last (k : Z) (i : nat) (gs : list (Z * list nat)) :
  StronglySorted key_lt gs → Forall (λ g, g.1 ≤ k) gs →
  (Forall (λ g, g.1 < k) gs ∧ pd.group_insert k i gs = gs ++ [(k, [i])]) ∨
  (∃ gs' rows, gs = gs' ++ [(k, rows)] ∧ Forall (λ g, g.1 < k) gs' ∧
               pd.group_insert k i gs = gs' ++ [(k, rows ++ [i])]).
Proof.
  induction gs as [| [k' rows] rest IH]; intros Hs Hle.
  - left. split; [constructor | reflexivity].
  - apply StronglySorted_cons in Hs as [Hhead Hs].
    apply Forall_cons in Hle as [Hk' Hle]. cbn in Hk'.
    cbn [pd.group_insert].
    destruct (Z.eqb_spec k k') as [-> | Hne].
    + right. exists [], rows.
      assert (rest = []) as ->.
      { destruct rest as [| g rest']; [reflexivity |].
        apply Forall_cons in Hhead as [H1 _]. apply Forall_cons in Hle as [H2 _].
        unfold key_lt in H1. cbn in H1. lia. }
      split; [reflexivity |]. split; [constructor | reflexivity].
    + destruct (Z.ltb_spec k k') as [Hlt | Hge]; [lia |].
      destruct (IH Hs Hle) as [[Hall Heq] | (gs' & rows' & -> & Hall & Heq)].
      * left. split; [constructor; [cbn; lia | exact Hall] |].
        rewrite Heq. reflexivity.
      * right. exists ((k', rows) :: gs'), rows'.
        split; [reflexivity |]. split; [constructor; [cbn; lia | exact Hall] |].
        rewrite Heq. reflexivity.
Qed.

Lemma monotone_snoc (ks : list Z) (k : Z) :
  monotone (ks ++ [k]) → monotone ks ∧ Forall (λ a, a ≤ k) ks.
Proof.
  intros Hm. split.
  - intros i j a b Hij Ha Hb.
    apply (Hm i j a b Hij); apply lookup_app_l_Some; assumption.
  - apply Forall_forall. intros a Ha.
    apply list_elem_of_lookup in Ha as [i Hi].
    apply (Hm i (length ks) a k).
    + apply lookup_lt_Some in Hi. lia.
    + apply lookup_app_l_Some, Hi.
    + rewrite lookup_app_r by lia. rewrite Nat.sub_diag. reflexivity.
Qed.

Lemma groupby_monotone (ks : list Z) : monotone ks → grouped ks (pd.groupby ks).
Proof.
  induction ks as [| k ks IH] using rev_ind; intros Hm.
  - split; [reflexivity | constructor | constructor | constructor].
  - apply monotone_snoc in Hm as [Hm Hall].
    destruct (IH Hm) as [Hcat Hne Hsort Hkeys].
    assert (Hle : Forall (λ g, g.1 ≤ k) (pd.groupby ks)).
    { apply Forall_forall. intros g Hg.
      rewrite Forall_forall in Hkeys. rewrite Forall_forall in Hall.
      apply Hall, Hkeys, Hg. }
    rewrite groupby_snoc.
    assert (Hlen : length (ks ++ [k]) = S (length ks)).
    { rewrite length_app. cbn. lia. }
    destruct (group_insert_last k (length ks) _ Hsort Hle)
      as [[Hlt ->] | (gs' & rows & Hgs & Hlt & ->)].
    + split.
      * rewrite fmap_app, concat_app, Hcat, Hlen, seq_S. cbn. reflexivity.
      * apply Forall_app. split; [exact Hne | repeat constructor; discriminate].
      * apply StronglySorted_app_2; [| exact Hsort | repeat constructor].
        intros x1 x2 H1 H2. apply list_elem_of_singleton in H2 as ->.
        rewrite Forall_forall in Hlt. exact (Hlt _ H1).
      * apply Forall_app. split.
        -- eapply Forall_impl; [exact Hkeys |]. intros g Hg. apply elem_of_app. left. exact Hg.
        -- repeat constructor. cbn. apply elem_of_app. right. apply list_elem_of_singleton.
           reflexivity.
    + rewrite Hgs in Hcat, Hne, Hsort, Hkeys.
      rewrite fmap_app, concat_app in Hcat. cbn in Hcat. rewrite app_nil_r in Hcat.
      apply Forall_app in Hne as [Hne _].
      apply StronglySorted_app_1_l in Hsort.
      apply Forall_app in Hkeys as [Hkeys _].
      split.
      * rewrite fmap_app, concat_app, Hlen, seq_S. cbn. rewrite app_nil_r, app_assoc, Hcat.
        reflexivity.
      * apply Forall_app. split; [exact Hne |]. repeat constructor. cbn.
        intros H. apply app_eq_nil in H as [_ H]. discriminate H.
      * apply StronglySorted_app_2; [| exact Hsort | repeat constructor].
        intros x1 x2 H1 H2. apply list_elem_of_singleton in H2 as ->.
        rewrite Forall_forall in Hlt. exact (Hlt _ H1).
      * apply Forall_app. split.
        -- eapply Forall_impl; [exact Hkeys |]. intros g Hg. apply elem_of_app. left. exact Hg.
        -- repeat constructor. cbn. apply elem_of_app. right. apply list_elem_of_singleton.
           reflexivity.
Qed.

Lemma app_eq_seq (l1 l2 : list nat) (a n : nat) :
  l1 ++ l2 = seq a n →
  l1 = seq a (length l1) ∧ l2 = seq (a + length l1) (length l2).
Proof.
  intros H.
  assert (Hn : n = (length l1 + length l2)%nat).
  { apply (f_equal length) in H. rewrite length_app, length_seq in H. lia. }
  subst n. rewrite seq_app in H.
  apply app_inj_1 in H; [exact H | rewrite length_seq; reflexivity].
Qed.

(** Lists whose concatenation is a range are consecutive ranges. *)
Lemma concat_seq_ranges (ls : list (list nat)) (a n : nat) :
  concat ls = seq a n →
  ∀ j rows, ls !! j = Some rows →
    rows = seq (a + length (concat (take j ls))) (length rows).
Proof.
  revert a n. induction ls as [| l ls IH]; intros a n H j rows Hj; [discriminate Hj |].
  cbn in H. apply app_eq_seq in H as [Hl Hrest].
  destruct j as [| j]; cbn in Hj.
  - injection Hj as <-. cbn. rewrite Nat.add_0_r. exact Hl.
  - cbn [take concat]. rewrite length_app.
    rewrite (IH _ _ Hrest j rows Hj) at 1. f_equal. lia.
Qed.

End groupby_facts.

(** ** The missing-data heatmap *)

Section heatmap_facts.

Lemma chunk_width_nonneg (L : nat) : (0 <= viz.chunk_width L)%Q.
Proof.
  unfold viz.chunk_width, Qdiv. apply Qmult_le_0_compat; [| discriminate].
  change 0%Q with (inject_Z 0). rewrite <- Zle_Qle. lia.
Qed.

Lemma length_chunk_keys (L : nat) : length (viz.chunk_keys L) = L.
Proof. unfold viz.chunk_keys, np.arange. rewrite !length_map, length_seq. reflexivity. Qed.

Lemma lookup_chunk_keys (L i : nat) (k : Z) :
  viz.chunk_keys L !! i = Some k →
  k = Qfloor (inject_Z (Z.of_nat i) / viz.chunk_width L).
Proof.
  unfold viz.chunk_keys, np.arange. rewrite !list_lookup_fmap.
  destruct (seq 0 L !! i) as [i' |] eqn:Hi; [| discriminate].
  apply lookup_seq in Hi as [-> _]. cbn. intros [= <-]. reflexivity.
Qed.

(** The keys never decrease along the rows. *)
Lemma chunk_keys_monotone (L : nat) : monotone (viz.chunk_keys L).
Proof.
  intros i j a b Hij Ha Hb.
  apply lookup_chunk_keys in Ha as ->. apply lookup_chunk_keys in Hb as ->.
  apply Qfloor_resp_le. unfold Qdiv. apply Qmult_le_compat_r.
  - rewrite <- Zle_Qle. lia.
  - apply Qinv_le_0_compat, chunk_width_nonneg.
Qed.

Lemma chunk_rows_concat (L : nat) : concat (viz.chunk_rows L) = seq 0 L.
Proof.
  unfold viz.chunk_rows.
  rewrite (grouped_concat _ _ (groupby_monotone _ (chunk_keys_monotone L))).
  rewrite length_chunk_keys. reflexivity.
Qed.

Lemma chunk_rows_nonempty (L : nat) : Forall (λ rows, rows ≠ []) (viz.chunk_rows L).
Proof.
  unfold viz.chunk_rows.
  pose proof (grouped_nonempty _ _ (groupby_monotone _ (chunk_keys_monotone L))) as H.
  apply Forall_fmap. exact H.
Qed.

Lemma chunk_rows_in_range (L : nat) (rows : list nat) :
  rows ∈ viz.chunk_rows L → Forall (λ i, (i < L)%nat) rows.
Proof.
  intros Hin. apply Forall_forall. intros i Hi.
  assert (H : i ∈ concat (viz.chunk_rows L)).
  { apply list_elem_of_In, in_concat. exists rows.
    split; apply list_elem_of_In; assumption. }
  rewrite chunk_rows_concat in H. apply elem_of_seq in H. lia.
Qed.

Lemma length_take_rows {A} (l : list A) (rows : list nat) :
  Forall (λ i, (i < length l)%nat) rows → length (pd.take_rows l rows) = length rows.
Proof.
  unfold pd.take_rows. induction 1 as [| i rows Hi _ IH]; [reflexivity |].
  cbn. destruct (lookup_lt_is_Some_2 l i Hi) as [x Hx]. rewrite Hx. cbn.
  f_equal. exact IH.
Qed.

(** The rows of a range are the corresponding slice of the column. *)
Lemma take_rows_seq {A} (l : list A) (a n : nat) :
  pd.take_rows l (seq a n) = take n (drop a l).
Proof.
  unfold pd.take_rows. revert a. induction n as [| n IH]; intros a; [reflexivity |].
  simpl seq. destruct (l !! a) as [x |] eqn:Hx.
  - rewrite (drop_S l x a Hx). cbn [take]. rewrite <- IH. cbn. rewrite Hx. reflexivity.
  - apply lookup_ge_None in Hx. rewrite drop_ge by lia. rewrite take_nil.
    transitivity (take n (drop (S a) l)).
    + rewrite <- IH. cbn. rewrite (proj2 (lookup_ge_None l a) Hx). reflexivity.
    + rewrite drop_ge by lia. apply take_nil.
Qed.

Lemma length_notna (ser : Series) : length (pd.notna ser) = pd.len ser.
Proof. destruct ser; cbn; apply length_map. Qed.

Lemma count_le_length (flags : list bool) : (pd.count flags ≤ length flags)%nat.
Proof. apply length_filter. Qed.

Lemma count_all (flags : list bool) :
  pd.count flags = length flags ↔ Forall (λ b, b = true) flags.
Proof.
  unfold pd.count. induction flags as [| b flags IH]; [split; constructor |].
  destruct b.
  - rewrite filter_cons_True by reflexivity. cbn. rewrite Forall_cons.
    split; [intros H; split; [reflexivity | apply IH; lia] |].
    intros [_ H]. f_equal. apply IH, H.
  - rewrite filter_cons_False by discriminate. cbn. split.
    + intros H. pose proof (length_filter (λ b, b = true) flags). lia.
    + intros H. apply Forall_cons in H as [H _]. discriminate H.
Qed.

Lemma Qdiv_one_iff (x z : Z) : 0 < z → (inject_Z x * 1 / inject_Z z == 1)%Q ↔ x = z.
Proof.
  intros Hz. destruct z as [| p | p]; try lia.
  unfold Qeq, Qdiv, Qmult, Qinv, inject_Z. cbn. lia.
Qed.

(** The completion of a non-empty chunk is 1 exactly when no entry of the
    chunk is missing. *)
Lemma completion_one (flags : list bool) :
  flags ≠ [] → ((viz.completion flags == 1)%Q ↔ Forall (λ b, b = true) flags).
Proof.
  intros Hne. rewrite <- count_all. unfold viz.completion.
  rewrite Qdiv_one_iff; [lia |].
  destruct flags; [contradiction | cbn; lia].
Qed.

Lemma heat_color_white (c : Q) :
  viz.heat_color (1 - c) = Named "white" ↔ (c == 1)%Q.
Proof.
  unfold viz.heat_color. destruct (Qeq_bool (1 - c) 0) eqn:E.
  - apply Qeq_bool_iff in E. split; [intros _ | reflexivity].
    rewrite <- (Qplus_0_l c), <- E. ring.
  - apply Qeq_bool_false_iff in E. split; [discriminate |].
    intros H. exfalso. apply E. rewrite H. reflexivity.
Qed.

Lemma heat_bars (cs : list Q) :
  zip_with (λ xh bc, ARect {| rect_x := xh.1; rect_width := 1; rect_height := xh.2;
                              rect_bottom := bc.1; rect_color := bc.2;
                              rect_alpha := None |})
    (zip (np.arange (length cs)) (replicate (length cs) (Finite 1)))
    (zip (replicate (length cs) (Finite 0)) (map (λ c, viz.heat_color (1 - c)) cs))
  = imap heat_bar cs.
Proof.
  apply list_eq. intros i.
  rewrite !lookup_zip_with, list_lookup_imap, list_lookup_fmap.
  destruct (cs !! i) as [c |] eqn:Hc.
  - pose proof (lookup_lt_Some _ _ _ Hc) as Hi.
    rewrite lookup_arange, !lookup_replicate_2 by exact Hi. reflexivity.
  - pose proof (proj1 (lookup_ge_None _ _) Hc) as Hi.
    rewrite lookup_arange_ge by exact Hi. reflexivity.
Qed.

(** [missing_heatmap] draws one bar per chunk. *)
Lemma missing_heatmap_draws (ser : Series) (w : world) :
  draws (viz.missing_heatmap ser) w (imap heat_bar (viz.ser_chunk ser)).
Proof.
  destruct (gca_spec w) as (ax & w0 & Hg & Hc & _).
  eapply draws_draw_on; [exact Hg |].
  unfold viz.missing_heatmap. step by exact Hg.
  unfold plt.bar.
  step by apply update_axes_run.
  rewrite heat_bars. reflexivity.
Qed.

Lemma length_ser_chunk (ser : Series) :
  length (viz.ser_chunk ser) = length (viz.chunk_rows (pd.len ser)).
Proof. unfold viz.ser_chunk. apply length_map. Qed.

End heatmap_facts.

(** The claim of C2 fails on the presence series [[0, 1]]: row 0 is marked
    missing, yet the chunk that holds it is given completion 1 and a white
    bar, where the claim's count of entries equal to 1 gives completion 0. *)
Lemma missing_heatmap_counts_non_null :
  viz.chunk_rows 2 = [[0%nat]; [1%nat]] ∧
  ∃ c0 c1 b0 b1,
    viz.ser_chunk (NumSeries [Finite 0; Finite 1]) = [c0; c1] ∧
    (c0 == 1)%Q ∧ (present_fraction [Finite 0] == 0)%Q ∧
    ¬ (c0 == present_fraction [Finite 0])%Q ∧
    draws (viz.missing_heatmap (NumSeries [Finite 0; Finite 1])) initial_world
      [ARect b0; ARect b1] ∧
    rect_color b0 = Named "white".
Proof.
  split; [vm_compute; reflexivity |].
  eexists _, _, _, _.
  split; [vm_compute; reflexivity |].
  split; [reflexivity |]. split; [reflexivity |]. split; [discriminate |].
  split; [apply (missing_heatmap_draws (NumSeries [Finite 0; Finite 1]) initial_world) |].
  reflexivity.
Qed.

(** C2, as the code has it.  [missing_heatmap] draws one bar per chunk; the
    completion of a chunk is the number of its entries that are not missing
    (not NaN, not [None]), whatever their value, divided by the size of the
    chunk; and the bar of a chunk is white exactly when that completion is 1,
    that is when no entry of the chunk is missing. *)
Theorem missing_heatmap_completion (ser : Series) (w : world) :
  ∃ bars,
    draws (viz.missing_heatmap ser) w bars ∧
    length bars = length (viz.chunk_rows (pd.len ser)) ∧
    ∀ i rows, viz.chunk_rows (pd.len ser) !! i = Some rows →
      let flags := pd.take_rows (pd.notna ser) rows in
      ∃ r, bars !! i = Some (ARect r) ∧
           rows ≠ [] ∧ length flags = length rows ∧
           viz.ser_chunk ser !! i = Some (viz.completion flags) ∧
           (viz.completion flags ==
              inject_Z (Z.of_nat (pd.count flags)) / inject_Z (Z.of_nat (length rows)))%Q ∧
           (rect_color r = Named "white" ↔ (viz.completion flags == 1)%Q) ∧
           ((viz.completion flags == 1)%Q ↔ Forall (λ b, b = true) flags).
Proof.
  exists (imap heat_bar (viz.ser_chunk ser)).
  split; [apply missing_heatmap_draws |].
  split; [rewrite length_imap; apply length_ser_chunk |].
  intros i rows Hrows flags.
  assert (Hin : rows ∈ viz.chunk_rows (pd.len ser)) by (eapply list_elem_of_lookup_2, Hrows).
  assert (Hne : rows ≠ []).
  { pose proof (chunk_rows_nonempty (pd.len ser)) as H.
    rewrite Forall_forall in H. exact (H _ Hin). }
  assert (Hlen : length flags = length rows).
  { apply length_take_rows. rewrite length_notna. apply chunk_rows_in_range, Hin. }
  assert (Hc : viz.ser_chunk ser !! i = Some (viz.completion flags)).
  { unfold viz.ser_chunk. rewrite list_lookup_fmap, Hrows. reflexivity. }
  eexists. split; [rewrite list_lookup_imap, Hc; reflexivity |].
  split; [exact Hne |]. split; [exact Hlen |]. split; [exact Hc |].
  split.
  { unfold viz.completion. rewrite Hlen, Qmult_1_r. reflexivity. }
  split; [apply heat_color_white |].
  apply completion_one. intros E. rewrite E in Hlen. destruct rows; [contradiction | discriminate].
Qed.

Lemma missing_heatmap_completion_witness :
  ∃ bars,
    draws (viz.missing_heatmap (NumSeries [Finite 0; NaN])) initial_world bars ∧
    length bars = 2%nat ∧
    ∃ r, bars !! 1%nat = Some (ARect r) ∧
         (rect_color r = Named "white" ↔
            (viz.completion (pd.take_rows (pd.notna (NumSeries [Finite 0; NaN])) [1%nat]) == 1)%Q) ∧
         ((viz.completion (pd.take_rows (pd.notna (NumSeries [Finite 0; NaN])) [1%nat]) == 1)%Q ↔
            Forall (λ b, b = true) (pd.take_rows (pd.notna (NumSeries [Finite 0; NaN])) [1%nat])).
Proof.
  destruct (missing_heatmap_completion (NumSeries [Finite 0; NaN]) initial_world)
    as (bars & Hd & Hl & Hall).
  exists bars. split; [exact Hd |]. split; [exact Hl |].
  destruct (Hall 1%nat [1%nat] eq_refl) as (r & Hr & _ & _ & _ & _ & Hw & Hc).
  exists r. split; [exact Hr |]. split; [exact Hw | exact Hc].
Defined.

(** C8. [missing_heatmap] cuts the rows of its input, by position, into
    non-empty chunks of consecutive rows that follow one another.  For 150
    rows there are exactly 15 chunks, chunk [j] being the rows [10 j] to
    [10 j + 9], so each chunk holds the 10 corresponding entries of the
    column, and 15 bars are drawn.  For 7 rows the divisor [7 / 15] is not
    zero, there are 7 chunks, and 7 bars are drawn, the call returning
    normally. *)
Theorem missing_heatmap_chunking :
  (∀ L : nat,
     concat (viz.chunk_rows L) = seq 0 L ∧
     Forall (λ rows, rows ≠ []) (viz.chunk_rows L) ∧
     ∀ j rows, viz.chunk_rows L !! j = Some rows →
       rows = seq (length (concat (take j (viz.chunk_rows L)))) (length rows)) ∧
  viz.chunk_rows 150 = (λ j, seq (10 * j) 10) <$> seq 0 15 ∧
  (∀ (ser : Series) (w : world), pd.len ser = 150%nat →
     ∃ bars, draws (viz.missing_heatmap ser) w bars ∧ length bars = 15%nat) ∧
  (∀ (l : list pyfloat) (j : nat), length l = 150%nat → (j < 15)%nat →
     ∃ rows, viz.chunk_rows 150 !! j = Some rows ∧
             pd.take_rows l rows = take 10 (drop (10 * j) l) ∧
             length (pd.take_rows l rows) = 10%nat) ∧
  ¬ (viz.chunk_width 7 == 0)%Q ∧
  viz.chunk_rows 7 = [[0]; [1]; [2]; [3]; [4]; [5]; [6]]%nat ∧
  (∀ (ser : Series) (w : world), pd.len ser = 7%nat →
     ∃ bars, draws (viz.missing_heatmap ser) w bars ∧ length bars = 7%nat ∧ bars ≠ []).
Proof.
  assert (H150 : viz.chunk_rows 150 = (λ j, seq (10 * j) 10) <$> seq 0 15)
    by (vm_compute; reflexivity).
  assert (H7 : viz.chunk_rows 7 = [[0]; [1]; [2]; [3]; [4]; [5]; [6]]%nat)
    by (vm_compute; reflexivity).
  split; [| split; [exact H150 | split; [| split; [| split; [| split; [exact H7 |]]]]]].
  - intros L. split; [apply chunk_rows_concat |]. split; [apply chunk_rows_nonempty |].
    intros j rows Hj.
    exact (concat_seq_ranges _ 0 L (chunk_rows_concat L) j rows Hj).
  - intros ser w Hlen. exists (imap heat_bar (viz.ser_chunk ser)).
    split; [apply missing_heatmap_draws |].
    rewrite length_imap, length_ser_chunk, Hlen, H150. reflexivity.
  - intros l j Hl Hj. exists (seq (10 * j) 10).
    assert (Hrow : viz.chunk_rows 150 !! j = Some (seq (10 * j) 10)).
    { rewrite H150, list_lookup_fmap, lookup_seq_lt by exact Hj. reflexivity. }
    split; [exact Hrow |]. split; [apply take_rows_seq |].
    rewrite take_rows_seq, length_take, length_drop. lia.
  - discriminate.
  - intros ser w Hlen. exists (imap heat_bar (viz.ser_chunk ser)).
    split; [apply missing_heatmap_draws |].
    assert (H : length (imap heat_bar (viz.ser_chunk ser)) = 7%nat).
    { rewrite length_imap, length_ser_chunk, Hlen, H7. reflexivity. }
    split; [exact H |]. intros E. rewrite E in H. discriminate H.
Qed.

Lemma missing_heatmap_chunking_witness :
  (∃ bars, draws (viz.missing_heatmap (NumSeries (replicate 150 (Finite 1)))) initial_world bars ∧
           length bars = 15%nat) ∧
  (∃ bars, draws (viz.missing_heatmap (ObjSeries (replicate 7 None))) initial_world bars ∧
           length bars = 7%nat ∧ bars ≠ []).
Proof.
  destruct missing_heatmap_chunking as (_ & _ & H150 & _ & _ & _ & H7).
  split.
  - apply H150. reflexivity.
  - apply H7. reflexivity.
Defined.

(** ** Counting distinct values *)

Section nunique_facts.

Lemma float_eqb_refl (x : pyfloat) : float.isnan x = false → float.eqb x x = true.
Proof.
  destruct x as [q | | |]; intros H; try reflexivity; [| discriminate H].
  apply Qeq_bool_iff. reflexivity.
Qed.

Lemma float_eqb_sym (x y : pyfloat) : float.eqb x y = float.eqb y x.
Proof.
  destruct x as [p | | |], y as [q | | |]; try reflexivity. cbn.
  destruct (Qeq_bool p q) eqn:E1, (Qeq_bool q p) eqn:E2; try reflexivity.
  - apply Qeq_bool_iff in E1. apply Qeq_bool_false_iff in E2. exfalso. apply E2.
    symmetry. exact E1.
  - apply Qeq_bool_iff in E2. apply Qeq_bool_false_iff in E1. exfalso. apply E1.
    symmetry. exact E2.
Qed.

Lemma float_eqb_trans (x y z : pyfloat) :
  float.eqb x y = true → float.eqb y z = true → float.eqb x z = true.
Proof.
  destruct x as [p | | |], y as [q | | |], z as [r | | |]; try discriminate; try reflexivity.
  cbn. rewrite !Qeq_bool_iff. intros H1 H2. rewrite H1. exact H2.
Qed.

(** [unique] keeps values of the column only. *)
Lemma unique_subset (l : list pyfloat) (x : pyfloat) : x ∈ pd.unique l → x ∈ l.
Proof.
  revert x. induction l as [| a l IH]; intros x Hx; [exact Hx |].
  cbn [pd.unique] in Hx. apply elem_of_cons in Hx as [-> | Hx]; [apply list_elem_of_here |].
  apply list_elem_of_filter in Hx as [_ Hx]. apply list_elem_of_further, IH, Hx.
Qed.

(** Every value of the column that is not NaN is equal to a kept one. *)
Lemma unique_covers (l : list pyfloat) (x : pyfloat) :
  x ∈ l → float.isnan x = false → ∃ y, y ∈ pd.unique l ∧ float.eqb x y = true.
Proof.
  induction l as [| a l IH]; intros Hx Hn; [apply elem_of_nil in Hx; contradiction |].
  cbn [pd.unique]. apply elem_of_cons in Hx as [-> | Hx].
  - exists a. split; [apply list_elem_of_here | apply float_eqb_refl, Hn].
  - destruct (IH Hx Hn) as (y & Hy & Hxy).
    destruct (float.eqb y a) eqn:Hya.
    + exists a. split; [apply list_elem_of_here | exact (float_eqb_trans _ _ _ Hxy Hya)].
    + exists y. split; [| exact Hxy].
      apply list_elem_of_further, list_elem_of_filter. split; [exact Hya | exact Hy].
Qed.

(** No two kept values are equal. *)
Lemma unique_distinct (l : list pyfloat) (i j : nat) (x y : pyfloat) :
  (i < j)%nat → pd.unique l !! i = Some x → pd.unique l !! j = Some y →
  float.eqb y x = false.
Proof.
  revert i j. induction l as [| a l IH]; intros i j Hij Hi Hj; [discriminate Hi |].
  cbn [pd.unique] in Hi, Hj.
  destruct j as [| j]; [lia |]. cbn in Hj.
  destruct i as [| i]; cbn in Hi.
  - injection Hi as <-.
    apply list_elem_of_lookup_2, list_elem_of_filter in Hj as [Hne _]. exact Hne.
  - set (P := λ z, float.eqb z a = false) in *.
    assert (Hsub : ∀ (k : list pyfloat) (m n : nat) (u v : pyfloat),
               (m < n)%nat → filter P k !! m = Some u → filter P k !! n = Some v →
               ∃ m' n', (m' < n')%nat ∧ k !! m' = Some u ∧ k !! n' = Some v).
    { clear. induction k as [| b k IHk]; intros m n u v Hmn Hm Hn; [discriminate Hm |].
      destruct (decide (P b)) as [Hb | Hb].
      - rewrite filter_cons_True in Hm, Hn by exact Hb.
        destruct n as [| n]; [lia |]. cbn in Hn.
        destruct m as [| m]; cbn in Hm.
        + injection Hm as <-.
          apply list_elem_of_lookup_2, list_elem_of_filter in Hn as [_ Hn].
          apply list_elem_of_lookup_1 in Hn as [n' Hn'].
          exists 0%nat, (S n'). split; [lia |]. split; [reflexivity | exact Hn'].
        + destruct (IHk m n u v ltac:(lia) Hm Hn) as (m' & n' & Hlt & Hm' & Hn').
          exists (S m'), (S n'). split; [lia |]. split; assumption.
      - rewrite filter_cons_False in Hm, Hn by exact Hb.
        destruct (IHk m n u v Hmn Hm Hn) as (m' & n' & Hlt & Hm' & Hn').
        exists (S m'), (S n'). split; [lia |]. split; assumption. }
    destruct (Hsub (pd.unique l) i j x y ltac:(lia) Hi Hj) as (i' & j' & Hlt & Hi' & Hj').
    exact (IH i' j' Hlt Hi' Hj').
Qed.

End nunique_facts.

(** ** The robust histogram *)

Section robust_hist_facts.

Variable drop_outliers_iqr : list pyfloat → Z → list pyfloat.

Lemma length_linspace (start stop : Q) (n : nat) : length (np.linspace start stop n) = S n.
Proof. unfold np.linspace. rewrite length_map, length_seq. reflexivity. Qed.

Lemma length_histogram (a : list pyfloat) (edges : list Q) :
  length (np.histogram a edges) = (length edges - 1)%nat.
Proof.
  induction edges as [| lo [| hi rest] IH]; [reflexivity | reflexivity |].
  change (np.histogram a (lo :: hi :: rest))
    with (length (filter (λ x, np.in_bin (match rest with [] => true | _ => false end)
                                 lo hi x = true) a)
            :: np.histogram a (hi :: rest)).
  cbn [length] in *. rewrite IH. lia.
Qed.

Lemma fold_ext_finite (pick : pyfloat → pyfloat → bool) (acc : pyfloat) (l : list pyfloat) :
  float.isfinite acc = true → Forall (λ x, float.isfinite x = true) l →
  float.isfinite (np.fold_ext pick acc l) = true.
Proof.
  intros Hacc Hl. revert acc Hacc.
  induction Hl as [| x l Hx _ IH]; intros acc Hacc; [exact Hacc |].
  cbn [np.fold_ext].
  destruct acc; try discriminate Hacc. destruct x; try discriminate Hx. cbn [float.isnan].
  apply IH. destruct (pick _ _); reflexivity.
Qed.

Lemma outer_edges_finite (a : list pyfloat) :
  Forall (λ x, float.isfinite x = true) a → ∃ lo hi, np.outer_edges a = Ok (lo, hi).
Proof.
  intros Ha. destruct Ha as [| x r Hx Hr]; [eexists _, _; reflexivity |].
  unfold np.outer_edges, np.amin, np.amax.
  pose proof (fold_ext_finite float.ltb x r Hx Hr) as Hmin.
  pose proof (fold_ext_finite float.gtb x r Hx Hr) as Hmax.
  destruct (np.fold_ext float.ltb x r); try discriminate Hmin.
  destruct (np.fold_ext float.gtb x r); try discriminate Hmax.
  destruct (Qeq_bool _ _); eexists _, _; reflexivity.
Qed.

(** A positive bin count on finite data gives one edge more than bins. *)
Lemma histogram_bin_edges_length (a : list pyfloat) (bins : Z) :
  1 ≤ bins → Forall (λ x, float.isfinite x = true) a →
  ∃ edges, np.histogram_bin_edges a bins = Ok edges ∧ length edges = S (Z.to_nat bins).
Proof.
  intros Hb Ha. unfold np.histogram_bin_edges.
  destruct (Z.ltb_spec bins 1) as [? | _]; [lia |].
  destruct (outer_edges_finite a Ha) as (lo & hi & ->).
  eexists. split; [reflexivity | apply length_linspace].
Qed.

(** A bin count below 1 is refused, whatever the data. *)
Lemma histogram_bin_edges_nonpositive (a : list pyfloat) (bins : Z) :
  bins < 1 → np.histogram_bin_edges a bins = Raise ValueError.
Proof.
  intros Hb. unfold np.histogram_bin_edges.
  destruct (Z.ltb_spec bins 1) as [_ | ?]; [reflexivity | lia].
Qed.

Lemma robust_hist_ok (ser : Series) (ref_ser : option Series) (bins : option Z)
    (IQR_multiple : Z) (density : bool) (w : world) (edges : list Q) :
  viz.bin_edges drop_outliers_iqr (scale_source ser ref_ser) bins IQR_multiple = Ok edges →
  draws (viz.robust_hist drop_outliers_iqr ser ref_ser bins IQR_multiple density) w
    [AHist {| hist_edges := edges;
              hist_counts := np.histogram (pd.dropna_num (viz.normalize_ser ser)) edges;
              hist_density := density |}].
Proof.
  intros He. destruct (gca_spec w) as (ax & w0 & Hg & Hc & _).
  eapply draws_draw_on; [exact Hg |].
  unfold viz.robust_hist.
  step by (unfold lift; destruct ref_ser; cbn [scale_source] in He; rewrite He;
           reflexivity).
  unfold Series_hist. step by exact Hg.
  step by apply update_axes_run. reflexivity.
Qed.

Lemma robust_hist_raises (ser : Series) (ref_ser : option Series) (bins : option Z)
    (IQR_multiple : Z) (density : bool) (w : world) (e : exn) :
  viz.bin_edges drop_outliers_iqr (scale_source ser ref_ser) bins IQR_multiple = Raise e →
  viz.robust_hist drop_outliers_iqr ser ref_ser bins IQR_multiple density w = (Raise e, w).
Proof.
  intros He. unfold viz.robust_hist.
  erewrite bind_raise; [reflexivity |].
  unfold lift. destruct ref_ser; cbn [scale_source] in He; rewrite He; reflexivity.
Qed.

(** Without a positive integer bin count [robust_hist] raises before it
    draws: [ValueError] from numpy for a count below 1, [TypeError] from
    [min] for [None]. *)
Lemma robust_hist_bad_bins (ser : Series) (ref_ser : option Series) (IQR_multiple : Z)
    (density : bool) (w : world) :
  (∀ bins, bins < 1 →
     viz.robust_hist drop_outliers_iqr ser ref_ser (Some bins) IQR_multiple density w
       = (Raise ValueError, w)) ∧
  viz.robust_hist drop_outliers_iqr ser ref_ser None IQR_multiple density w
    = (Raise TypeError, w).
Proof.
  split.
  - intros bins Hb. apply robust_hist_raises. unfold viz.bin_edges, py_min.
    apply histogram_bin_edges_nonpositive. lia.
  - apply robust_hist_raises. reflexivity.
Qed.

End robust_hist_facts.




(** ** Normalizing the two columns *)

Section normalize_facts.

Lemma dropna_num_codes (codes : list Z) :
  pd.dropna_num (map float.of_Z codes) = map float.of_Z codes.
Proof.
  unfold pd.dropna_num. induction codes as [| c codes IH]; [reflexivity |].
  cbn [map]. rewrite filter_cons_True by reflexivity. rewrite IH. reflexivity.
Qed.

Lemma length_cat_codes (l : list (option string)) : length (pd.cat_codes l) = length l.
Proof. unfold pd.cat_codes. apply length_map. Qed.

Lemma lookup_cat_codes_missing (l : list (option string)) (i : nat) :
  l !! i = Some None → pd.cat_codes l !! i = Some (-1).
Proof.
  intros Hi. unfold pd.cat_codes.
  change (map ?f ?l) with (f <$> l). rewrite list_lookup_fmap, Hi. reflexivity.
Qed.

End normalize_facts.

(** C5.  On a numeric column the reference path of [robust_hist] agrees with
    the primary path.  On a column of dtype [object] it does not drop the
    missing entries: it maps them to the category code -1 first, after which
    [dropna] finds nothing to drop, so the reference column keeps all its
    rows and each missing entry counts as the value -1.  The primary path
    drops the missing entries before it maps to codes.  On the column
    ["a", None, "b"] the two paths give [0, -1, 1] and [0, 1]. *)
Theorem reference_column_codes_missing_entries :
  (∀ l, viz.normalize_ref_ser (NumSeries l) = viz.normalize_ser (NumSeries l)) ∧
  (∀ l, length (viz.normalize_ref_ser (ObjSeries l)) = length l) ∧
  (∀ l i, l !! i = Some None →
     viz.normalize_ref_ser (ObjSeries l) !! i = Some (float.of_Z (-1))) ∧
  (∀ l, length (viz.normalize_ser (ObjSeries l)) = length (filter (λ o, is_Some o) l)) ∧
  viz.normalize_ser (ObjSeries [Some "a"; None; Some "b"]%string)
    = [float.of_Z 0; float.of_Z 1] ∧
  viz.normalize_ref_ser (ObjSeries [Some "a"; None; Some "b"]%string)
    = [float.of_Z 0; float.of_Z (-1); float.of_Z 1] ∧
  viz.normalize_ref_ser (ObjSeries [Some "a"; None; Some "b"]%string)
    ≠ viz.normalize_ser (ObjSeries [Some "a"; None; Some "b"]%string).
Proof.
  split; [reflexivity |].
  split.
  { intros l. unfold viz.normalize_ref_ser, viz.codes_if_object, pd.to_numeric.
    rewrite dropna_num_codes, length_map. apply length_cat_codes. }
  split.
  { intros l i Hi. unfold viz.normalize_ref_ser, viz.codes_if_object, pd.to_numeric.
    rewrite dropna_num_codes. change (map ?f ?l) with (f <$> l).
    rewrite list_lookup_fmap, (lookup_cat_codes_missing l i Hi). reflexivity. }
  split.
  { intros l. unfold viz.normalize_ser, viz.codes_if_object, pd.to_numeric, pd.dropna.
    rewrite length_map. apply length_cat_codes. }
  split; [vm_compute; reflexivity |]. split; [vm_compute; reflexivity |].
  vm_compute. discriminate.
Qed.

(** ** The sparkline packager and the figure registry *)

Section sparkify_facts.

Variable print_png : Figure → list Axes → string.
Variable b64encode : string → string.

Lemma new_figure_id_fresh (w : world) : new_figure_id w ∉ Gcf w.
Proof.
  unfold new_figure_id. intros Hin.
  apply (is_fresh (dom (figs w) ∪ list_to_set (Gcf w))).
  apply elem_of_union. right. apply elem_of_list_to_set. exact Hin.
Qed.

Lemma filter_ne_absent (fig : nat) (l : list nat) :
  fig ∉ l → filter (λ f, f ≠ fig) l = l.
Proof.
  induction l as [| x l IH]; intros Hn; [reflexivity |].
  apply not_elem_of_cons in Hn as [Hne Hn].
  rewrite filter_cons_True by congruence. rewrite IH by exact Hn. reflexivity.
Qed.

Lemma filter_ne_removes (fig : nat) (l : list nat) : fig ∉ filter (λ f, f ≠ fig) l.
Proof. intros Hin. apply list_elem_of_filter in Hin as [Hne _]. congruence. Qed.

Lemma close_after_figure (fig : nat) (l : list nat) :
  fig ∉ l → filter (λ f, f ≠ fig) (l ++ [fig]) = l.
Proof.
  intros Hn. rewrite filter_app, filter_ne_absent by exact Hn.
  rewrite filter_cons_False by (intros H; apply H; reflexivity).
  rewrite filter_nil. apply app_nil_r.
Qed.

(** [plt.gcf()] never raises, and creates nothing while a figure is open. *)
Lemma gcf_spec (w : world) :
  ∃ fig w', plt.gcf w = (Ok fig, w') ∧ (Gcf w ≠ [] → w' = w) ∧
            Series_attrs w' = Series_attrs w.
Proof.
  unfold plt.gcf. destruct (last (Gcf w)) as [fig |] eqn:Hl.
  - exists fig, w. done.
  - eexists _, _. split; [reflexivity |]. split; [| reflexivity].
    intros Hne. apply last_None in Hl. contradiction.
Qed.

Lemma subplots_adjust_spec (left right top bottom : Q) (w : world) :
  ∃ w', plt.subplots_adjust left right top bottom w = (Ok (), w') ∧
        (Gcf w ≠ [] → Gcf w' = Gcf w) ∧ Series_attrs w' = Series_attrs w.
Proof.
  destruct (gcf_spec w) as (fig & w1 & Hg & Hsame & Hattrs).
  unfold plt.subplots_adjust. step by exact Hg.
  eexists. split; [reflexivity |]. cbn. split; [| exact Hattrs].
  intros Hne. rewrite (Hsame Hne). reflexivity.
Qed.

Lemma savefig_spec (w : world) :
  ∃ img w', viz.savefig print_png w = (Ok img, w') ∧
            (Gcf w ≠ [] → Gcf w' = Gcf w) ∧ Series_attrs w' = Series_attrs w.
Proof.
  destruct (gcf_spec w) as (fig & w1 & Hg & Hsame & Hattrs).
  unfold viz.savefig. step by exact Hg.
  eexists _, _. split; [reflexivity |]. split; [| exact Hattrs].
  intros Hne. rewrite (Hsame Hne). reflexivity.
Qed.

(** What a call of [sparkify] does to the registry and to [pd.Series]: the
    renderer runs in a world [w1] in which the new figure is open and
    current; if it raises, [sparkify] raises the same at once, in the world
    the renderer left; if it returns, [sparkify] returns a string, and the
    new figure is closed. *)
Lemma sparkify_run {R} (plt_func : M R) (figsize : Q * Q) (ylim : option (Q * Q))
    (caption : option string) (w : world) :
  ∃ w1, Gcf w1 = Gcf w ++ [new_figure_id w] ∧ Series_attrs w1 = Series_attrs w ∧
    (∃ ax, current_axes w1 ax ∧ axs w1 !!! ax = axis_off (new_Axes (0, 0, 1, 1)%Q)) ∧
    match plt_func w1 with
    | (Ok _, w2) =>
        ∃ s w', viz.sparkify print_png b64encode plt_func figsize ylim caption w = (Ok s, w') ∧
                (new_figure_id w ∉ Gcf w') ∧
                (Gcf w2 = Gcf w1 → Gcf w' = Gcf w) ∧
                Series_attrs w' = Series_attrs w2
    | (Raise e, w2) =>
        viz.sparkify print_png b64encode plt_func figsize ylim caption w = (Raise e, w2)
    end.
Proof.
  unfold viz.sparkify.
  step by reflexivity.
  step by reflexivity.
  step by reflexivity.
  step by reflexivity.
  match goal with |- context [mbind _ plt_func ?w1] => exists w1 end.
  split; [reflexivity |]. split; [reflexivity |]. split.
  { eexists. split.
    - eexists. split; [cbn; apply last_snoc |].
      cbn. rewrite !lookup_total_insert_eq. cbn. reflexivity.
    - cbn. rewrite !lookup_total_insert_eq. reflexivity. }
  match goal with |- context [mbind _ plt_func ?w1] =>
    destruct (plt_func w1) as [[r | e] w2] eqn:Hp end.
  2: { erewrite bind_raise; [reflexivity | exact Hp]. }
  step by exact Hp.
  set (ax := fresh (dom (axs _))).
  assert (Hy : ∃ w3, (match ylim with Some l => plt.set_ylim ax l | None => mret () end) w2
                       = (Ok (), w3) ∧ Gcf w3 = Gcf w2 ∧ Series_attrs w3 = Series_attrs w2).
  { destruct ylim; eexists; (split; [reflexivity | done]). }
  destruct Hy as (w3 & Hy & Hg3 & Ha3).
  step by exact Hy.
  step by reflexivity.
  step by reflexivity.
  step by reflexivity.
  match goal with |- context [mbind _ (plt.subplots_adjust 0 1 1 0) ?w4] =>
    destruct (subplots_adjust_spec 0 1 1 0 w4) as (w5 & Hs & Hg5 & Ha5) end.
  step by exact Hs.
  destruct (savefig_spec w5) as (img & w6 & Hi & Hg6 & Ha6).
  step by exact Hi.
  step by reflexivity.
  cbn in Hg5, Ha5.
  assert (H1 : new_figure_id w ∉ filter (λ f, f ≠ new_figure_id w) (Gcf w6))
    by apply filter_ne_removes.
  assert (H2 : Gcf w2 = Gcf w ++ [new_figure_id w] →
               filter (λ f, f ≠ new_figure_id w) (Gcf w6) = Gcf w).
  { intros Hkeep.
    assert (Hne : Gcf w2 ≠ []).
    { rewrite Hkeep. intros E. apply app_eq_nil in E as [_ E]. discriminate E. }
    assert (E3 : Gcf w3 ≠ []) by (rewrite Hg3; exact Hne).
    pose proof (Hg5 E3) as E5.
    assert (E5' : Gcf w5 ≠ []) by (rewrite E5; exact E3).
    rewrite (Hg6 E5'), E5, Hg3, Hkeep.
    apply close_after_figure, new_figure_id_fresh. }
  assert (H3 : Series_attrs w6 = Series_attrs w2) by congruence.
  destruct caption as [c |]; eexists _, _; (split; [reflexivity |]); cbn;
    (split; [exact H1 |]); (split; [intros Hk; apply H2; exact Hk | exact H3]).
Qed.

End sparkify_facts.

Section registry_facts.

Variable print_png : Figure → list Axes → string.
Variable b64encode : string → string.

(** A renderer that draws leaves the registry as it is while a figure is
    open, and leaves [pd.Series] alone. *)
Lemma draws_keeps (m : M nat) (w : world) (l : list artist) :
  draws m w l →
  ∃ ax w', m w = (Ok ax, w') ∧ (Gcf w ≠ [] → Gcf w' = Gcf w) ∧
           Series_attrs w' = Series_attrs w.
Proof.
  intros (ax & w0 & w' & Hg & Hm & _ & _ & _ & HG & HS).
  destruct (gca_spec w) as (ax1 & w1 & Hg1 & _ & HS1 & HG1).
  rewrite Hg in Hg1. injection Hg1 as <- <-.
  exists ax, w'. split; [exact Hm |].
  split; [intros Hne; rewrite HG; apply HG1, Hne | congruence].
Qed.

Lemma donut_draws_some (perc : pyfloat) (label : option string) (color : string)
    (wedgewidth : Q) (w : world) :
  ∃ l, draws (viz.donut perc label color wedgewidth) w l.
Proof.
  destruct (unit_interval_cases perc) as [(q & -> & [H | [H | [H0 H1]]]) | Hout].
  - eexists. apply donut_full, H.
  - eexists. apply donut_empty, H.
  - eexists. apply donut_partial; assumption.
  - eexists. apply donut_outside, Hout.
Qed.

(** [spark_donut] returns, and leaves the registry and [pd.Series] as they
    were. *)
Lemma spark_donut_run (perc : pyfloat) (label : option string) (color : string)
    (wedgewidth : Q) (figsize : Q * Q) (caption : option string) (w : world) :
  ∃ s w', viz.spark_donut print_png b64encode perc label color wedgewidth figsize caption w
            = (Ok s, w') ∧
          Gcf w' = Gcf w ∧ Series_attrs w' = Series_attrs w.
Proof.
  unfold viz.spark_donut.
  destruct (sparkify_run print_png b64encode (viz.donut perc label color wedgewidth)
              figsize None caption w) as (w1 & HG1 & HS1 & _ & Hrun).
  destruct (donut_draws_some perc label color wedgewidth w1) as (l & Hl).
  destruct (draws_keeps _ _ _ Hl) as (ax & w2 & Hm & HG2 & HS2).
  rewrite Hm in Hrun. destruct Hrun as (s & w' & Hs & _ & Hkeep & HS').
  exists s, w'. split; [exact Hs |]. split; [| congruence].
  apply Hkeep, HG2. rewrite HG1. intros E. apply app_eq_nil in E as [_ E]. discriminate E.
Qed.

End registry_facts.




(** ** Importing the module *)



(** * Further properties of the module *)

(** ** The number humanizer: errors, tiers and mantissa *)

Section millify_more.

Local Open Scope Z_scope.

Lemma inject_pow1000_pos (t : Z) : 0 ≤ t → (0 < inject_Z (1000 ^ t))%Q.
Proof.
  intros Ht. change 0%Q with (inject_Z 0). rewrite <- Zlt_Qlt.
  apply Z.pow_pos_nonneg; lia.
Qed.

Lemma Qabs_div_pow1000 (q : Q) (t : Z) :
  0 ≤ t → (Qabs (q / inject_Z (1000 ^ t)) == Qabs q / inject_Z (1000 ^ t))%Q.
Proof.
  intros Ht. unfold Qdiv. rewrite Qabs_Qmult, Qabs_Qinv.
  rewrite (Qabs_pos (inject_Z (1000 ^ t))); [reflexivity |].
  apply Qlt_le_weak, inject_pow1000_pos, Ht.
Qed.

(** The tier brackets the magnitude: from tier 1 on the number is at least
    [1000^tier], and below tier 8 it is less than [1000^(tier+1)]. *)
Lemma tier_of_bounds (q : Q) :
  (1 ≤ tier_of q → (inject_Z (1000 ^ tier_of q) <= Qabs q)%Q) ∧
  (tier_of q ≤ 7 → (Qabs q < inject_Z (1000 ^ (tier_of q + 1)))%Q).
Proof.
  destruct (Qlt_le_dec (Qabs q) 1000) as [Hs | Hl].
  - rewrite (tier_of_below_1000 q Hs). split; [lia | intros _; exact Hs].
  - assert (H1 : (1 <= Qabs q)%Q) by (eapply Qle_trans; [| exact Hl]; discriminate).
    destruct (floor_log1000_large _ H1) as (Hk & Hlo & Hhi). cbn zeta in *.
    set (k := math.floor_log1000 (Qabs q)) in *.
    rewrite (tier_of_between q k Hk Hlo Hhi).
    destruct (Z.le_gt_cases k 8) as [Hk8 | Hk8].
    + rewrite Z.min_r by lia. split; intros _; assumption.
    + rewrite Z.min_l by lia. split; [intros _ | lia].
      eapply Qle_trans; [| exact Hlo]. rewrite <- Zle_Qle.
      apply Z.pow_le_mono_r; lia.
Qed.

End millify_more.







(** ** The missing bar chart: the two layers stack to the unit height *)



(** ** The robust histogram: a column without values *)

Section robust_hist_empty.

Lemma normalize_ser_all_missing (ser : Series) :
  Forall (λ b, b = false) (pd.notna ser) → viz.normalize_ser ser = [].
Proof.
  intros Hall. unfold viz.normalize_ser, pd.to_numeric.
  destruct ser as [l | l]; cbn [pd.notna pd.dropna viz.codes_if_object] in *.
  - unfold pd.dropna_num. induction l as [| x l IH]; [reflexivity |].
    cbn [map] in Hall. apply Forall_cons in Hall as [Hx Hl].
    rewrite filter_cons_False; [apply IH, Hl |].
    destruct (float.isnan x); [discriminate | discriminate Hx].
  - assert (E : filter (λ o : option string, is_Some o) l = []).
    { induction l as [| o l IH]; [reflexivity |].
      cbn [map] in Hall. apply Forall_cons in Hall as [Ho Hl].
      rewrite filter_cons_False; [apply IH, Hl |].
      destruct o; [discriminate Ho | intros [? ?]; discriminate]. }
    rewrite E. reflexivity.
Qed.

End robust_hist_empty.

(** X5.  A column that holds no value (it is empty, or every entry is
    missing) is no error for [robust_hist] when no reference column is given,
    the bin count is at least 1 and the outlier filter makes nothing of
    nothing: one histogram is drawn, with the single bin [[0, 1]] and the
    count 0. *)
Theorem robust_hist_all_missing (drop_outliers_iqr : list pyfloat → Z → list pyfloat)
    (ser : Series) (bins IQR_multiple : Z) (density : bool) (w : world) :
  1 ≤ bins →
  Forall (λ b, b = false) (pd.notna ser) →
  drop_outliers_iqr [] IQR_multiple = [] →
  ∃ lo hi,
    draws (viz.robust_hist drop_outliers_iqr ser None (Some bins) IQR_multiple density) w
      [AHist {| hist_edges := [lo; hi]; hist_counts := [0%nat]; hist_density := density |}] ∧
    (lo == 0)%Q ∧ (hi == 1)%Q.
Proof.
  intros Hb Hall Hdrop.
  pose proof (normalize_ser_all_missing ser Hall) as Hn.
  assert (He : viz.bin_edges drop_outliers_iqr (scale_source ser None) (Some bins) IQR_multiple
               = Ok (np.linspace 0 1 1)).
  { unfold viz.bin_edges, py_min. cbn [scale_source]. rewrite Hn, Hdrop.
    change (pd.nunique []) with 0. replace (Z.min (Z.max 0 1) bins) with 1 by lia.
    reflexivity. }
  pose proof (robust_hist_ok drop_outliers_iqr ser None (Some bins) IQR_multiple density w _ He)
    as Hd.
  rewrite Hn in Hd. eexists _, _. split; [exact Hd |]. split; reflexivity.
Qed.

Lemma robust_hist_all_missing_witness :
  ∃ lo hi,
    draws (viz.robust_hist keep_rows (ObjSeries [None; None]) None (Some 50) 3 true)
      initial_world
      [AHist {| hist_edges := [lo; hi]; hist_counts := [0%nat]; hist_density := true |}] ∧
    (lo == 0)%Q ∧ (hi == 1)%Q.
Proof.
  apply (robust_hist_all_missing keep_rows (ObjSeries [None; None]) 50 3 true initial_world).
  - lia.
  - repeat constructor.
  - reflexivity.
Defined.

(** ** The robust histogram: what the bins cover and what they count *)

Section histogram_facts.

Lemma filter_all {A} (P : A → Prop) `{!∀ x, Decision (P x)} (l : list A) :
  Forall P l → filter P l = l.
Proof.
  induction 1 as [| x l Hx _ IH]; [reflexivity |].
  rewrite filter_cons_True by exact Hx. f_equal. exact IH.
Qed.

Lemma length_filter_split {A} (P1 P2 P : A → Prop)
    `{!∀ x, Decision (P1 x)} `{!∀ x, Decision (P2 x)} `{!∀ x, Decision (P x)} (l : list A) :
  (∀ x, P x ↔ P1 x ∨ P2 x) → (∀ x, P1 x → P2 x → False) →
  (length (filter P1 l) + length (filter P2 l) = length (filter P l))%nat.
Proof.
  intros Hsplit Hdisj. induction l as [| x l IH]; [reflexivity |].
  rewrite !filter_cons.
  destruct (decide (P1 x)) as [Hx1 | Hx1], (decide (P2 x)) as [Hx2 | Hx2],
    (decide (P x)) as [Hx | Hx]; cbn [length];
    try lia; exfalso; first [exact (Hdisj x Hx1 Hx2) | apply Hx, Hsplit; tauto
                            | apply Hsplit in Hx; tauto].
Qed.

Lemma in_bin_closed (lo hi : Q) (x : pyfloat) :
  np.in_bin true lo hi x = true ↔ ∃ v, x = Finite v ∧ (lo <= v)%Q ∧ (v <= hi)%Q.
Proof.
  destruct x as [v | | |]; cbn;
    [| split; [discriminate | intros (? & ? & _); discriminate] ..].
  rewrite andb_true_iff, !Qle_bool_iff. split.
  - intros [? ?]. exists v. done.
  - intros (? & [= <-] & ? & ?). done.
Qed.

Lemma in_bin_half_open (lo hi : Q) (x : pyfloat) :
  np.in_bin false lo hi x = true ↔ ∃ v, x = Finite v ∧ (lo <= v)%Q ∧ (v < hi)%Q.
Proof.
  destruct x as [v | | |]; cbn;
    [| split; [discriminate | intros (? & ? & _); discriminate] ..].
  rewrite andb_true_iff, Qle_bool_iff, Qlt_bool_iff. split.
  - intros [? ?]. exists v. done.
  - intros (? & [= <-] & ? & ?). done.
Qed.

(** Over edges that never decrease, the bins count each value between the
    first and the last edge once, and no other value. *)
Lemma histogram_total (a : list pyfloat) (edges : list Q) (lo hi : Q) :
  Sorted Qle (lo :: edges) → last edges = Some hi →
  sum_list (np.histogram a (lo :: edges))
  = length (filter (λ x, np.in_bin true lo hi x = true) a).
Proof.
  revert lo. induction edges as [| e edges IH]; intros lo Hs Hl; [discriminate Hl |].
  destruct edges as [| e2 rest].
  - injection Hl as <-. cbn. lia.
  - change (np.histogram a (lo :: e :: e2 :: rest))
      with (length (filter (λ x, np.in_bin false lo e x = true) a)
              :: np.histogram a (e :: e2 :: rest)).
    cbn [sum_list_with]. unfold id at 1.
    apply Sorted_inv in Hs as [Hs Hhd]. apply HdRel_inv in Hhd.
    rewrite (IH e Hs Hl).
    assert (Hhi : (e <= hi)%Q).
    { assert (Hss : StronglySorted Qle (e :: e2 :: rest))
        by (apply Sorted_StronglySorted; [exact Qle_trans | exact Hs]).
      apply StronglySorted_inv in Hss as [_ Hall].
      rewrite Forall_forall in Hall. apply Hall.
      change (last (e2 :: rest) = Some hi) in Hl.
      apply last_Some in Hl as [l' ->]. apply elem_of_app. right. apply list_elem_of_here. }
    apply length_filter_split.
    + intros x. rewrite in_bin_closed, in_bin_half_open, in_bin_closed. split.
      * intros (v & -> & H1 & H2). destruct (Qlt_le_dec v e) as [Hv | Hv].
        -- left. exists v. done.
        -- right. exists v. done.
      * intros [(v & -> & H1 & H2) | (v & -> & H1 & H2)]; exists v;
          (split; [reflexivity |]); split; lra.
    + intros x. rewrite in_bin_half_open, in_bin_closed.
      intros (v & -> & _ & H1) (v' & [= <-] & H2 & _). lra.
Qed.

Lemma sorted_map_seq (f : nat → Q) (a m : nat) :
  (∀ i, (f i <= f (S i))%Q) → Sorted Qle (map f (seq a m)).
Proof.
  intros Hf. revert a. induction m as [| m IH]; intros a; [constructor |].
  cbn [seq map]. constructor; [apply IH |].
  destruct m; cbn; constructor. apply Hf.
Qed.

Lemma linspace_sorted (start stop : Q) (n : nat) :
  (start <= stop)%Q → Sorted Qle (np.linspace start stop n).
Proof.
  intros Hle. unfold np.linspace. apply sorted_map_seq. intros i.
  assert (Hd : (0 <= (stop - start) / inject_Z (Z.of_nat n))%Q).
  { unfold Qdiv. apply Qmult_le_0_compat; [lra |].
    apply Qinv_le_0_compat. change 0%Q with (inject_Z 0). rewrite <- Zle_Qle. lia. }
  rewrite Nat2Z.inj_succ. unfold Z.succ. rewrite inject_Z_plus.
  set (d := ((stop - start) / inject_Z (Z.of_nat n))%Q) in *.
  change (inject_Z 1) with 1%Q. nra.
Qed.

Lemma linspace_ends (start stop : Q) (n : nat) :
  (0 < n)%nat →
  ∃ lo rest hi, np.linspace start stop n = lo :: rest ∧ last rest = Some hi ∧
                (lo == start)%Q ∧ (hi == stop)%Q.
Proof.
  intros Hn. unfold np.linspace. destruct n as [| n]; [lia |].
  rewrite (seq_S (S n)), map_app. cbn [seq map Nat.add].
  eexists _, _, _. split; [reflexivity |]. split; [apply last_snoc |].
  split; [cbn; ring |].
  assert (Hne : ¬ (inject_Z (Z.of_nat (S n)) == 0)%Q).
  { change 0%Q with (inject_Z 0). rewrite inject_Z_injective. lia. }
  field. exact Hne.
Qed.

Lemma fold_ext_min (acc : Q) (l : list pyfloat) :
  Forall (λ x, float.isfinite x = true) l →
  ∃ m, np.fold_ext float.ltb (Finite acc) l = Finite m ∧ (m <= acc)%Q ∧
       Forall (λ x, ∃ v, x = Finite v ∧ (m <= v)%Q) l.
Proof.
  intros Hl. revert acc. induction Hl as [| x l Hx _ IH]; intros acc.
  - exists acc. split; [reflexivity |]. split; [lra | constructor].
  - destruct x as [v | | |]; try discriminate Hx. cbn [np.fold_ext float.isnan float.ltb].
    destruct (Qlt_bool v acc) eqn:E.
    + apply Qlt_bool_iff in E. destruct (IH v) as (m & Hm & Hle & Hall).
      exists m. split; [exact Hm |]. split; [lra |].
      constructor; [exists v; split; [reflexivity | exact Hle] | exact Hall].
    + apply Qlt_bool_false_iff in E. destruct (IH acc) as (m & Hm & Hle & Hall).
      exists m. split; [exact Hm |]. split; [exact Hle |].
      constructor; [exists v; split; [reflexivity | lra] | exact Hall].
Qed.

Lemma fold_ext_max (acc : Q) (l : list pyfloat) :
  Forall (λ x, float.isfinite x = true) l →
  ∃ m, np.fold_ext float.gtb (Finite acc) l = Finite m ∧ (acc <= m)%Q ∧
       Forall (λ x, ∃ v, x = Finite v ∧ (v <= m)%Q) l.
Proof.
  intros Hl. revert acc. induction Hl as [| x l Hx _ IH]; intros acc.
  - exists acc. split; [reflexivity |]. split; [lra | constructor].
  - destruct x as [v | | |]; try discriminate Hx.
    cbn [np.fold_ext float.isnan float.gtb float.ltb].
    destruct (Qlt_bool acc v) eqn:E.
    + apply Qlt_bool_iff in E. destruct (IH v) as (m & Hm & Hle & Hall).
      exists m. split; [exact Hm |]. split; [lra |].
      constructor; [exists v; split; [reflexivity | exact Hle] | exact Hall].
    + apply Qlt_bool_false_iff in E. destruct (IH acc) as (m & Hm & Hle & Hall).
      exists m. split; [exact Hm |]. split; [exact Hle |].
      constructor; [exists v; split; [reflexivity | lra] | exact Hall].
Qed.

End histogram_facts.

Section scale_facts.

(** The range numpy gives the bins is never empty and holds every value of
    the data it was computed from. *)
Lemma outer_edges_covers (a : list pyfloat) :
  Forall (λ x, float.isfinite x = true) a →
  ∃ lo hi, np.outer_edges a = Ok (lo, hi) ∧ (lo < hi)%Q ∧
           Forall (λ x, ∃ v, x = Finite v ∧ (lo <= v)%Q ∧ (v <= hi)%Q) a.
Proof.
  intros Ha. destruct Ha as [| x r Hx Hr].
  - exists 0%Q, 1%Q. split; [reflexivity |]. split; [reflexivity | constructor].
  - destruct x as [v | | |]; try discriminate Hx.
    unfold np.outer_edges, np.amin, np.amax.
    destruct (fold_ext_min v r Hr) as (m & -> & Hm & Hmin).
    destruct (fold_ext_max v r Hr) as (M & -> & HM & Hmax).
    assert (Hall : Forall (λ x, ∃ v, x = Finite v ∧ (m <= v)%Q ∧ (v <= M)%Q) (Finite v :: r)).
    { constructor; [exists v; done |].
      rewrite Forall_forall in Hmin, Hmax. apply Forall_forall. intros x Hin.
      destruct (Hmin x Hin) as (y & -> & H1). destruct (Hmax _ Hin) as (y' & [= <-] & H2).
      exists y. done. }
    destruct (Qeq_bool m M) eqn:E.
    + apply Qeq_bool_iff in E. eexists _, _. split; [reflexivity |]. split; [lra |].
      eapply Forall_impl; [exact Hall |]. intros x (y & -> & H1 & H2).
      exists y. split; [reflexivity |]. split; lra.
    + apply Qeq_bool_false_iff in E. eexists _, _. split; [reflexivity |].
      split; [| exact Hall].
      destruct (Qlt_le_dec m M) as [Hlt | Hge]; [exact Hlt |].
      exfalso. apply E. lra.
Qed.

Lemma normalize_ser_no_nan (ser : Series) :
  Forall (λ x, float.isnan x = false) (viz.normalize_ser ser).
Proof.
  unfold viz.normalize_ser, pd.to_numeric.
  destruct ser as [l | l]; cbn [pd.dropna viz.codes_if_object].
  - apply Forall_forall. intros x Hx. apply list_elem_of_filter in Hx as [Hx _]. exact Hx.
  - apply Forall_forall. intros x Hx. apply list_elem_of_fmap in Hx as (c & -> & _).
    reflexivity.
Qed.

End scale_facts.

(** The edges [robust_hist] computes from a filtered scale source [a] of
    finite values: they never decrease, span a range that is not empty and
    holds every value of [a], and bins over them count each value in the
    range once. *)
Lemma bin_edges_scale (drop_outliers_iqr : list pyfloat → Z → list pyfloat)
    (src : list pyfloat) (bins IQR_multiple : Z) :
  1 ≤ bins →
  Forall (λ x, float.isfinite x = true) (drop_outliers_iqr src IQR_multiple) →
  ∃ edges lo hi,
    viz.bin_edges drop_outliers_iqr src (Some bins) IQR_multiple = Ok edges ∧
    head edges = Some lo ∧ last edges = Some hi ∧ (lo < hi)%Q ∧ Sorted Qle edges ∧
    Forall (λ x, np.in_bin true lo hi x = true) (drop_outliers_iqr src IQR_multiple) ∧
    ∀ values, sum_list (np.histogram values edges)
              = length (filter (λ x, np.in_bin true lo hi x = true) values).
Proof.
  intros Hb Hfin.
  set (a := drop_outliers_iqr src IQR_multiple) in *.
  set (b := Z.min (Z.max (pd.nunique a) 1) bins).
  destruct (outer_edges_covers a Hfin) as (lo0 & hi0 & Ho & Hlt & Hcov).
  assert (He : viz.bin_edges drop_outliers_iqr src (Some bins) IQR_multiple
               = Ok (np.linspace lo0 hi0 (Z.to_nat b))).
  { unfold viz.bin_edges, py_min, np.histogram_bin_edges. fold a. fold b.
    destruct (Z.ltb_spec b 1) as [? | _]; [lia |]. rewrite Ho. reflexivity. }
  destruct (linspace_ends lo0 hi0 (Z.to_nat b) ltac:(lia))
    as (lo & rest & hi & Hlin & Hlast & Elo & Ehi).
  assert (Hs : Sorted Qle (np.linspace lo0 hi0 (Z.to_nat b)))
    by (apply linspace_sorted; lra).
  exists (np.linspace lo0 hi0 (Z.to_nat b)), lo, hi.
  split; [exact He |]. rewrite Hlin in *.
  split; [reflexivity |].
  split; [destruct rest; [discriminate Hlast | exact Hlast] |].
  split; [lra |]. split; [exact Hs |]. split.
  - eapply Forall_impl; [exact Hcov |]. intros x (v & -> & H1 & H2).
    apply in_bin_closed. exists v. split; [reflexivity |]. split; lra.
  - intros values. apply (histogram_total _ rest lo hi Hs Hlast).
Qed.



(** ** The robust histogram: the codes of a text column *)

Section category_facts.

Lemma elem_of_insert_sorted (x s : string) (l : list string) :
  x ∈ pd.insert_sorted s l ↔ x = s ∨ x ∈ l.
Proof.
  induction l as [| t r IH]; cbn [pd.insert_sorted].
  - rewrite !elem_of_cons. tauto.
  - destruct (String.eqb s t) eqn:E.
    + apply String.eqb_eq in E as ->. rewrite elem_of_cons. tauto.
    + destruct (String.ltb s t); rewrite !elem_of_cons; [tauto |].
      rewrite IH. tauto.
Qed.

Lemma elem_of_categories (s : string) (l : list (option string)) :
  s ∈ pd.categories l ↔ Some s ∈ l.
Proof.
  unfold pd.categories. induction l as [| o l IH]; cbn [foldr].
  - split; intros H; inversion H.
  - destruct o as [t |]; rewrite ?elem_of_insert_sorted, elem_of_cons, IH.
    + split; [intros [-> | H]; [left; reflexivity | right; exact H] |].
      intros [[= ->] | H]; [left; reflexivity | right; exact H].
    + split; [intros H; right; exact H | intros [[=] | H]; exact H].
Qed.

Lemma categories_dropna (l : list (option string)) :
  pd.categories (filter (λ o, is_Some o) l) = pd.categories l.
Proof.
  unfold pd.categories. induction l as [| o l IH]; [reflexivity |].
  destruct o as [t |].
  - rewrite filter_cons_True by (eexists; reflexivity). cbn [foldr]. rewrite IH. reflexivity.
  - rewrite filter_cons_False by (intros [? ?]; discriminate). exact IH.
Qed.

Lemma index_of_spec (s : string) (cats : list string) (i : Z) :
  s ∈ cats → ∃ n : nat, pd.index_of s cats i = i + Z.of_nat n ∧ cats !! n = Some s.
Proof.
  revert i. induction cats as [| t r IH]; intros i Hin; [inversion Hin |].
  cbn [pd.index_of]. destruct (String.eqb s t) eqn:E.
  - apply String.eqb_eq in E as ->. exists 0%nat. split; [lia | reflexivity].
  - apply elem_of_cons in Hin as [-> | Hin]; [rewrite String.eqb_refl in E; discriminate E |].
    destruct (IH (i + 1) Hin) as (n & -> & Hn). exists (S n). split; [lia | exact Hn].
Qed.

End category_facts.

(** X7.  The primary column of [robust_hist], when it is a text column, is
    plotted by category code, and a missing entry gets no code there: the
    plotted column has one code per entry that is not missing, in order;
    every code is the position of the entry's text among the categories, so
    it lies in [0 .. number of categories - 1] and is never -1; and two
    entries have the same code exactly when they hold the same text. *)
Theorem robust_hist_text_codes (l : list (option string)) :
  ∃ codes : list Z,
    viz.normalize_ser (ObjSeries l) = map float.of_Z codes ∧
    length codes = length (filter (λ o, is_Some o) l) ∧
    (∀ i c, codes !! i = Some c →
       ∃ s, filter (λ o, is_Some o) l !! i = Some (Some s) ∧
            0 ≤ c < Z.of_nat (length (pd.categories l)) ∧
            pd.categories l !! Z.to_nat c = Some s) ∧
    (∀ i j c d, codes !! i = Some c → codes !! j = Some d →
       (c = d ↔ filter (λ o, is_Some o) l !! i = filter (λ o, is_Some o) l !! j)).
Proof.
  set (l' := filter (λ o, is_Some o) l).
  assert (Hcode : ∀ i c, pd.cat_codes l' !! i = Some c →
            ∃ s, l' !! i = Some (Some s) ∧ c = pd.index_of s (pd.categories l) 0 ∧
                 0 ≤ c < Z.of_nat (length (pd.categories l)) ∧
                 pd.categories l !! Z.to_nat c = Some s).
  { intros i c Hc. unfold pd.cat_codes in Hc. rewrite list_lookup_fmap in Hc.
    destruct (l' !! i) as [o |] eqn:Ho; [| discriminate Hc].
    assert (Hin : o ∈ l') by (eapply list_elem_of_lookup_2, Ho).
    pose proof Hin as Hsome. apply list_elem_of_filter in Hsome as [[s ->] _].
    exists s. split; [reflexivity |].
    change (Some (pd.index_of s (pd.categories l') 0) = Some c) in Hc.
    injection Hc as <-.
    rewrite (categories_dropna l : pd.categories l' = pd.categories l).
    assert (Hs : s ∈ pd.categories l).
    { rewrite <- categories_dropna. apply elem_of_categories, Hin. }
    destruct (index_of_spec s _ 0 Hs) as (n & -> & Hn).
    pose proof (lookup_lt_Some _ _ _ Hn).
    split; [reflexivity |]. split; [lia |].
    replace (Z.to_nat (0 + Z.of_nat n)) with n by lia. exact Hn. }
  exists (pd.cat_codes l'). split; [reflexivity |].
  split; [unfold pd.cat_codes; apply length_map |]. split.
  - intros i c Hc. destruct (Hcode i c Hc) as (s & Hs & _ & Hr & Hl). exists s. done.
  - intros i j c d Hc Hd.
    destruct (Hcode i c Hc) as (s & Hs & Ec & _ & Hl).
    destruct (Hcode j d Hd) as (t & Ht & Ed & _ & Hl').
    rewrite Hs, Ht. split.
    + intros <-. rewrite Hl in Hl'. injection Hl' as <-. reflexivity.
    + intros [= <-]. congruence.
Qed.

(** ** The sparkline packager: what the picture shows *)

Section sparkify_picture.

Variable print_png : Figure → list Axes → string.
Variable b64encode : string → string.

Lemma sparkify_picture (plt_func : M nat) (size : Q * Q) (ylim : option (Q * Q))
    (caption : option string) (w : world) (l : list artist) :
  (∀ w1, draws plt_func w1 l) →
  ∃ ax w',
    viz.sparkify print_png b64encode plt_func size ylim caption w
      = (Ok (spark_html print_png b64encode size ax ylim caption l), w') ∧
    (ax ∉ dom (axs w)) ∧
    Gcf w' = Gcf w ∧ Series_attrs w' = Series_attrs w ∧
    (∀ fig, fig ≠ new_figure_id w → figs w' !! fig = figs w !! fig) ∧
    (∀ ax', ax' ≠ ax → axs w' !! ax' = axs w !! ax').
Proof.
  intros Hdraws. unfold viz.sparkify.
  step by reflexivity.
  step by reflexivity.
  step by reflexivity.
  step by reflexivity.
  cbn [set_figs set_axs set_Gcf Series_attrs figs axs Gcf].
  set (fig := new_figure_id w). set (ax := fresh (dom (axs w))).
  match goal with |- context [mbind _ plt_func ?W] => set (w1 := W) end.
  assert (Hcur : current_axes w1 ax).
  { exists fig. split; [apply last_snoc |].
    cbn. rewrite !lookup_total_insert_eq. reflexivity. }
  destruct (Hdraws w1) as (ax0 & w0 & w2 & Hg & Hm & Hax & Hothers & Hfigs & HGcf & HS).
  rewrite (gca_current w1 ax Hcur) in Hg. injection Hg as <- <-.
  step by exact Hm.
  destruct w2 as [S2 F2 A2 G2].
  cbn [set_figs set_axs set_Gcf Series_attrs figs axs Gcf w1] in Hax, Hothers, Hfigs, HGcf, HS.
  subst S2 F2 G2.
  rewrite !lookup_total_insert_eq in Hax.
  assert (Hgcf : ∀ S F A, plt.gcf {| Series_attrs := S; figs := F; axs := A;
                                     Gcf := Gcf w ++ [fig] |}
                          = (Ok fig, {| Series_attrs := S; figs := F; axs := A;
                                        Gcf := Gcf w ++ [fig] |})).
  { intros S F A. unfold plt.gcf. cbn [Gcf]. rewrite last_snoc. reflexivity. }
  assert (Hfresh : ax ∉ dom (axs w)) by apply is_fresh.
  assert (Hclose : filter (λ f, f ≠ fig) (Gcf w ++ [fig]) = Gcf w)
    by apply close_after_figure, new_figure_id_fresh.
  exists ax.
  destruct ylim as [yl |], caption as [c |];
    (do 4 step by reflexivity);
    unfold plt.subplots_adjust, viz.savefig;
    unfold set_axs, set_figs, set_Gcf; cbn [Series_attrs figs axs Gcf];
    (step by (erewrite bind_ok; [reflexivity | apply Hgcf]));
    unfold set_axs, set_figs, set_Gcf; cbn [Series_attrs figs axs Gcf];
    (step by (erewrite bind_ok; [reflexivity | apply Hgcf]));
    (step by reflexivity);
    unfold set_axs, set_figs, set_Gcf; cbn [Series_attrs figs axs Gcf];
    rewrite !lookup_total_insert_eq, Hax;
    cbn [figsize fig_axes subplotpars new_Figure app map];
    rewrite !lookup_total_insert_eq;
    cbn [ax_rect axison ax_artists ax_ylim spines_visible xticks yticks add_artists axis_off
         new_Axes app];
    eexists; (split; [reflexivity |]); cbn [Series_attrs figs axs Gcf];
    (split; [exact Hfresh |]); (split; [exact Hclose |]); (split; [reflexivity |]);
    (split; [intros fig' Hne; rewrite !lookup_insert_ne by congruence; reflexivity |]);
    intros ax' Hne; rewrite !lookup_insert_ne by congruence;
    rewrite (Hothers ax' Hne), !lookup_insert_ne by congruence; reflexivity.
Qed.

End sparkify_picture.





(** ** The robust histogram: when it raises *)

Section range_facts.

Lemma fold_ext_nan_acc (pick : pyfloat → pyfloat → bool) (l : list pyfloat) :
  np.fold_ext pick NaN l = NaN.
Proof. destruct l; reflexivity. Qed.

Lemma fold_ext_min_neginf (l : list pyfloat) :
  float.isfinite (np.fold_ext float.ltb NegInf l) = false.
Proof.
  induction l as [| x l IH]; [reflexivity |].
  destruct x; cbn [np.fold_ext float.isnan float.ltb]; try exact IH. reflexivity.
Qed.

Lemma fold_ext_max_posinf (l : list pyfloat) :
  float.isfinite (np.fold_ext float.gtb PosInf l) = false.
Proof.
  induction l as [| x l IH]; [reflexivity |].
  destruct x; cbn [np.fold_ext float.isnan float.gtb float.ltb]; try exact IH. reflexivity.
Qed.

Lemma fold_ext_min_not_finite (acc : pyfloat) (l : list pyfloat) :
  Exists (λ x, x = NaN ∨ x = NegInf) l →
  float.isfinite (np.fold_ext float.ltb acc l) = false.
Proof.
  intros Hex. revert acc. induction Hex as [x l Hx | x l _ IH]; intros acc.
  - destruct Hx as [-> | ->]; destruct acc; cbn [np.fold_ext float.isnan float.ltb];
      try reflexivity; apply fold_ext_min_neginf.
  - cbn [np.fold_ext]. destruct (float.isnan acc); [reflexivity |].
    destruct (float.isnan x); [reflexivity | apply IH].
Qed.

Lemma fold_ext_max_not_finite (acc : pyfloat) (l : list pyfloat) :
  Exists (λ x, x = NaN ∨ x = PosInf) l →
  float.isfinite (np.fold_ext float.gtb acc l) = false.
Proof.
  intros Hex. revert acc. induction Hex as [x l Hx | x l _ IH]; intros acc.
  - destruct Hx as [-> | ->]; destruct acc;
      cbn [np.fold_ext float.isnan float.gtb float.ltb];
      try reflexivity; apply fold_ext_max_posinf.
  - cbn [np.fold_ext]. destruct (float.isnan acc); [reflexivity |].
    destruct (float.isnan x); [reflexivity | apply IH].
Qed.

(** numpy refuses data whose range is not finite. *)
Lemma outer_edges_not_finite (a : list pyfloat) :
  Exists (λ x, float.isfinite x = false) a → np.outer_edges a = Raise ValueError.
Proof.
  intros Hex.
  assert (H : ∀ x r, float.isfinite (np.amin x r) = false ∨
                     float.isfinite (np.amax x r) = false →
                     np.outer_edges (x :: r) = Raise ValueError).
  { intros x r Hnf. unfold np.outer_edges.
    destruct (np.amin x r), (np.amax x r), Hnf as [E | E]; try reflexivity; discriminate E. }
  destruct a as [| x r]; [inversion Hex |]. apply H. unfold np.amin, np.amax.
  apply Exists_cons in Hex as [Hx | Hr].
  - destruct x; try discriminate Hx.
    + right. apply fold_ext_max_posinf.
    + left. apply fold_ext_min_neginf.
    + left. rewrite fold_ext_nan_acc. reflexivity.
  - assert (Hor : Exists (λ x, x = NaN ∨ x = NegInf) r ∨ Exists (λ x, x = NaN ∨ x = PosInf) r).
    { induction Hr as [y r Hy | y r _ IH].
      - destruct y; try discriminate Hy.
        + right. apply Exists_cons_hd. right. reflexivity.
        + left. apply Exists_cons_hd. right. reflexivity.
        + left. apply Exists_cons_hd. left. reflexivity.
      - destruct IH as [IH | IH]; [left | right]; apply Exists_cons_tl, IH. }
    destruct Hor as [Hor | Hor].
    + left. apply fold_ext_min_not_finite, Hor.
    + right. apply fold_ext_max_not_finite, Hor.
Qed.

End range_facts.

Section outcome_facts.

Variable drop_outliers_iqr : list pyfloat → Z → list pyfloat.

Lemma bin_edges_raises (src : list pyfloat) (b IQR_multiple : Z) :
  b < 1 ∨ Exists (λ x, float.isfinite x = false) (drop_outliers_iqr src IQR_multiple) →
  viz.bin_edges drop_outliers_iqr src (Some b) IQR_multiple = Raise ValueError.
Proof.
  intros Hbad. unfold viz.bin_edges, py_min, np.histogram_bin_edges.
  destruct (Z.ltb_spec (Z.min (Z.max (pd.nunique (drop_outliers_iqr src IQR_multiple)) 1) b) 1)
    as [_ | Hge]; [reflexivity |].
  destruct Hbad as [Hb | Hex]; [lia |].
  rewrite (outer_edges_not_finite _ Hex). reflexivity.
Qed.

Lemma bin_edges_ok (src : list pyfloat) (b IQR_multiple : Z) :
  1 ≤ b → Forall (λ x, float.isfinite x = true) (drop_outliers_iqr src IQR_multiple) →
  ∃ edges, viz.bin_edges drop_outliers_iqr src (Some b) IQR_multiple = Ok edges ∧
           Z.of_nat (length edges)
           = 1 + Z.min (Z.max (pd.nunique (drop_outliers_iqr src IQR_multiple)) 1) b.
Proof.
  intros Hb Hfin.
  destruct (histogram_bin_edges_length (drop_outliers_iqr src IQR_multiple)
              (Z.min (Z.max (pd.nunique (drop_outliers_iqr src IQR_multiple)) 1) b)
              ltac:(lia) Hfin) as (edges & He & Hlen).
  exists edges. split; [exact He | lia].
Qed.

End outcome_facts.





(** ** The number humanizer: rounding after the tier is chosen *)

Section millify_rounding.

Local Open Scope Z_scope.

Lemma round_half_even_1000 (x : Q) :
  (1999 # 2 <= x)%Q → (x < 1000)%Q → round_half_even x = 1000.
Proof.
  intros Hlo Hhi.
  pose proof (Qfloor_le x) as H1. pose proof (Qlt_floor x) as H2.
  assert (Hf : Qfloor x = 999).
  { assert (Ha : Qfloor x < 1000).
    { rewrite Zlt_Qlt. change (inject_Z 1000) with 1000%Q. lra. }
    assert (Hb : 999 < Qfloor x + 1).
    { rewrite Zlt_Qlt. change (inject_Z 999) with 999%Q. lra. }
    lia. }
  unfold round_half_even. rewrite Hf.
  destruct (Qcompare (x - inject_Z 999) (1 # 2)) eqn:E; [reflexivity | | reflexivity].
  apply Qlt_alt in E. change (inject_Z 999) with 999%Q in E. lra.
Qed.

Lemma Qlt_bool_div_pos (q d : Q) : (0 < d)%Q → Qlt_bool (q / d) 0 = Qlt_bool q 0.
Proof.
  intros Hd. destruct (Qlt_bool q 0) eqn:E.
  - apply Qlt_bool_iff in E. apply Qlt_bool_iff.
    apply Qlt_shift_div_r; [exact Hd | lra].
  - apply Qlt_bool_false_iff in E. apply Qlt_bool_false_iff.
    apply Qle_shift_div_l; [exact Hd | lra].
Qed.

End millify_rounding.



(** ** The missing-data heatmap: how many chunks, and how large *)

Section chunk_facts.

Lemma Qfloor_inject_div (a b : Z) : 0 < b → Qfloor (inject_Z a / inject_Z b) = a / b.
Proof.
  intros Hb. destruct b as [| p | p]; try lia.
  unfold Qdiv, Qinv, Qmult, inject_Z, Qfloor. cbn.
  rewrite Z.mul_1_r. reflexivity.
Qed.

(** The key of row [i] of [L]: [floor(i / (L / 15))] is [floor(15 i / L)]. *)
Lemma chunk_key_spec (L i : nat) :
  (i < L)%nat → viz.chunk_keys L !! i = Some (15 * Z.of_nat i / Z.of_nat L).
Proof.
  intros Hi. unfold viz.chunk_keys. rewrite list_lookup_fmap, lookup_arange by exact Hi.
  cbn [fmap option_fmap option_map]. f_equal.
  rewrite <- (Qfloor_inject_div (15 * Z.of_nat i) (Z.of_nat L)) by lia.
  apply Qfloor_comp. unfold viz.chunk_width. rewrite inject_Z_mult.
  assert (Hne : ¬ (inject_Z (Z.of_nat L) == 0)%Q).
  { change 0%Q with (inject_Z 0). rewrite inject_Z_injective. lia. }
  change (inject_Z 15) with 15%Q. field. exact Hne.
Qed.

Lemma elem_of_group_insert (k : Z) (i : nat) (gs : list (Z * list nat)) (g : Z * list nat) :
  g ∈ pd.group_insert k i gs →
  g ∈ gs ∨ g = (k, [i]) ∨ ∃ rows, (k, rows) ∈ gs ∧ g = (k, rows ++ [i]).
Proof.
  induction gs as [| [k' rows] rest IH]; cbn [pd.group_insert].
  - intros H. apply list_elem_of_singleton in H. right. left. exact H.
  - destruct (Z.eqb_spec k k') as [-> | Hne].
    + intros H. apply elem_of_cons in H as [-> | H].
      * right. right. exists rows. split; [apply list_elem_of_here | reflexivity].
      * left. apply list_elem_of_further, H.
    + destruct (k <? k').
      * intros H. apply elem_of_cons in H as [-> | H]; [right; left; reflexivity |].
        left. exact H.
      * intros H. apply elem_of_cons in H as [-> | H]; [left; apply list_elem_of_here |].
        destruct (IH H) as [H' | [H' | (rows' & H' & ->)]].
        -- left. apply list_elem_of_further, H'.
        -- right. left. exact H'.
        -- right. right. exists rows'. split; [apply list_elem_of_further, H' | reflexivity].
Qed.

(** Every row of a group has the key of the group. *)
Lemma groupby_row_key (ks : list Z) (g : Z * list nat) (i : nat) :
  g ∈ pd.groupby ks → i ∈ g.2 → ks !! i = Some g.1.
Proof.
  revert g i. induction ks as [| k ks IH] using rev_ind; intros g i Hg Hi.
  - inversion Hg.
  - assert (Hlast : (ks ++ [k]) !! length ks = Some k).
    { rewrite lookup_app_r by lia. rewrite Nat.sub_diag. reflexivity. }
    rewrite groupby_snoc in Hg.
    destruct (elem_of_group_insert _ _ _ _ Hg) as [H | [-> | (rows & H & ->)]].
    + apply lookup_app_l_Some, IH; assumption.
    + cbn in Hi. apply list_elem_of_singleton in Hi as ->. exact Hlast.
    + cbn in Hi. apply elem_of_app in Hi as [Hi | Hi].
      * apply lookup_app_l_Some. apply (IH (k, rows) i H Hi).
      * apply list_elem_of_singleton in Hi as ->. exact Hlast.
Qed.

Lemma sorted_groups_key_inj (gs : list (Z * list nat)) (g g' : Z * list nat) :
  StronglySorted key_lt gs → g ∈ gs → g' ∈ gs → g.1 = g'.1 → g = g'.
Proof.
  induction 1 as [| x gs Hs IH Hall]; intros Hg Hg' Heq; [inversion Hg |].
  rewrite Forall_forall in Hall. unfold key_lt in Hall.
  apply elem_of_cons in Hg as [-> | Hg]; apply elem_of_cons in Hg' as [-> | Hg'].
  - reflexivity.
  - specialize (Hall _ Hg'). lia.
  - specialize (Hall _ Hg). lia.
  - apply IH; assumption.
Qed.

End chunk_facts.

Section chunk_structure.

Lemma elem_of_group_rows (gs : list (Z * list nat)) (i : nat) :
  i ∈ concat gs.*2 ↔ ∃ g, g ∈ gs ∧ i ∈ g.2.
Proof.
  rewrite list_elem_of_In, in_concat. split.
  - intros (rows & Hrows & Hi). apply list_elem_of_In, list_elem_of_fmap in Hrows as (g & -> & Hg).
    exists g. split; [exact Hg | apply list_elem_of_In, Hi].
  - intros (g & Hg & Hi). exists g.2. split; apply list_elem_of_In; [| exact Hi].
    apply list_elem_of_fmap. exists g. done.
Qed.

Lemma key_range (L i : nat) : (i < L)%nat → 0 ≤ 15 * Z.of_nat i / Z.of_nat L < 15.
Proof.
  intros Hi. split.
  - apply Z.div_pos; lia.
  - apply Z.div_lt_upper_bound; lia.
Qed.

Lemma div_bounds (x L : Z) : 0 < L → L * (x / L) ≤ x < L * (x / L) + L.
Proof.
  intros HL. pose proof (Z.mul_div_le x L HL). pose proof (Z.mul_succ_div_gt x L HL). lia.
Qed.

(** A group of the heatmap is a run of consecutive rows: exactly the rows
    whose key is the key of the group. *)
Lemma chunk_group (L : nat) (g : Z * list nat) :
  g ∈ pd.groupby (viz.chunk_keys L) →
  ∃ a n, g.2 = seq a n ∧ (0 < n)%nat ∧ (a + n ≤ L)%nat ∧
         ∀ i, (i < L)%nat → 15 * Z.of_nat i / Z.of_nat L = g.1 ↔ (a ≤ i < a + n)%nat.
Proof.
  intros Hg.
  destruct (groupby_monotone _ (chunk_keys_monotone L)) as [Hcat Hne Hsort _].
  rewrite length_chunk_keys in Hcat.
  assert (Hin : ∀ i, i ∈ g.2 → (i < L)%nat).
  { intros i Hi. assert (H : i ∈ concat (pd.groupby (viz.chunk_keys L)).*2)
      by (apply elem_of_group_rows; exists g; done).
    rewrite Hcat in H. apply elem_of_seq in H. lia. }
  pose proof Hg as Hj. apply list_elem_of_lookup in Hj as [j Hj].
  assert (Hrows : (pd.groupby (viz.chunk_keys L)).*2 !! j = Some g.2)
    by (rewrite list_lookup_fmap, Hj; reflexivity).
  pose proof (concat_seq_ranges _ 0 L Hcat j _ Hrows) as Hseq.
  set (a := (0 + length (concat (take j (pd.groupby (viz.chunk_keys L)).*2)))%nat) in Hseq.
  set (n := length g.2) in *.
  assert (Hn : (0 < n)%nat).
  { rewrite Forall_forall in Hne. specialize (Hne _ Hg).
    subst n. destruct g.2; [contradiction | cbn; lia]. }
  exists a, n. split; [exact Hseq |]. split; [exact Hn |]. split.
  - assert (H : ((a + n - 1) < L)%nat); [| lia].
    apply Hin. rewrite Hseq. apply elem_of_seq. lia.
  - intros i Hi. split.
    + intros Hkey.
      assert (H : i ∈ concat (pd.groupby (viz.chunk_keys L)).*2)
        by (rewrite Hcat; apply elem_of_seq; lia).
      apply elem_of_group_rows in H as (g' & Hg' & Hi').
      pose proof (groupby_row_key _ _ _ Hg' Hi') as Hk.
      rewrite (chunk_key_spec L i Hi) in Hk. injection Hk as Hk.
      assert (g' = g) as -> by (apply (sorted_groups_key_inj _ _ _ Hsort Hg' Hg); congruence).
      rewrite Hseq in Hi'. apply elem_of_seq in Hi'. lia.
    + intros Hrange.
      assert (Hi' : i ∈ g.2) by (rewrite Hseq; apply elem_of_seq; lia).
      pose proof (groupby_row_key _ _ _ Hg Hi') as Hk.
      rewrite (chunk_key_spec L i Hi) in Hk. injection Hk as Hk. exact Hk.
Qed.

(** The sizes of the chunks differ by less than one from [L / 15]. *)
Lemma chunk_group_size (L : nat) (g : Z * list nat) :
  g ∈ pd.groupby (viz.chunk_keys L) →
  15 * (Z.of_nat (length g.2) - 1) < Z.of_nat L < 15 * (Z.of_nat (length g.2) + 1).
Proof.
  intros Hg. destruct (chunk_group L g Hg) as (a & n & Hseq & Hn & HL & Hkey).
  rewrite Hseq, length_seq.
  set (k := g.1) in *. set (Lz := Z.of_nat L) in *.
  assert (HLz : 0 < Lz) by (subst Lz; lia).
  assert (key : ∀ i : nat, (i < L)%nat →
            Lz * (15 * Z.of_nat i / Lz) ≤ 15 * Z.of_nat i < Lz * (15 * Z.of_nat i / Lz) + Lz)
    by (intros i _; apply div_bounds, HLz).
  assert (mono : ∀ i j : nat, (i ≤ j)%nat → 15 * Z.of_nat i / Lz ≤ 15 * Z.of_nat j / Lz)
    by (intros i j Hij; apply Z.div_le_mono; lia).
  assert (Ha : 15 * Z.of_nat a / Lz = k) by (apply Hkey; lia).
  assert (Hb : 15 * Z.of_nat (a + n - 1) / Lz = k) by (apply Hkey; lia).
  pose proof (key a ltac:(lia)) as Ka. pose proof (key (a + n - 1)%nat ltac:(lia)) as Kb.
  rewrite Ha in Ka. rewrite Hb in Kb.
  split; [lia |].
  assert (Hlow : 15 * (Z.of_nat a - 1) < Lz * k).
  { pose proof (key_range L a ltac:(lia)) as Hr. fold Lz in Hr. rewrite Ha in Hr.
    destruct a as [| a']; [nia |].
    assert (Hp : 15 * Z.of_nat a' / Lz ≠ k) by (intros E; apply Hkey in E; lia).
    pose proof (mono a' (S a') ltac:(lia)) as Hm. rewrite Ha in Hm.
    pose proof (key a' ltac:(lia)) as Kp. nia. }
  assert (Hup : Lz * (k + 1) ≤ 15 * Z.of_nat (a + n)).
  { destruct (decide (a + n < L)%nat) as [Hlt | Hge].
    - assert (Hp : 15 * Z.of_nat (a + n) / Lz ≠ k) by (intros E; apply Hkey in E; lia).
      pose proof (mono (a + n - 1)%nat (a + n)%nat ltac:(lia)) as Hm. rewrite Hb in Hm.
      pose proof (key (a + n)%nat ltac:(lia)) as Kn. nia.
    - pose proof (key_range L a ltac:(lia)) as Hr. fold Lz in Hr. rewrite Ha in Hr.
      replace (Z.of_nat (a + n)) with Lz by (subst Lz; lia). nia. }
  lia.
Qed.

End chunk_structure.

Section chunk_count.

Lemma length_concat_singletons {A} (ls : list (list A)) :
  Forall (λ l, length l = 1%nat) ls → length (concat ls) = length ls.
Proof.
  induction 1 as [| l ls Hl _ IH]; [reflexivity |].
  cbn [concat]. rewrite length_app, Hl, IH. reflexivity.
Qed.

Lemma singletons_of_seq (ls : list (list nat)) (a n : nat) :
  Forall (λ l, length l = 1%nat) ls → concat ls = seq a n →
  ls = (λ i, [i]) <$> seq a n.
Proof.
  intros Hone. revert a n. induction Hone as [| l ls Hl _ IH]; intros a n Hcat.
  - destruct n; [reflexivity | discriminate Hcat].
  - destruct l as [| x [| y l]]; try discriminate Hl.
    destruct n as [| n]; [discriminate Hcat |].
    cbn in Hcat. injection Hcat as -> Hcat.
    cbn [seq fmap list_fmap]. f_equal. apply IH, Hcat.
Qed.

Lemma sorted_groups_keys_NoDup (gs : list (Z * list nat)) :
  StronglySorted key_lt gs → NoDup gs.*1.
Proof.
  induction 1 as [| g gs _ IH Hall]; [constructor |].
  cbn. constructor; [| exact IH].
  intros Hin. apply list_elem_of_fmap in Hin as (g' & Heq & Hg').
  rewrite Forall_forall in Hall. specialize (Hall _ Hg'). unfold key_lt in Hall. lia.
Qed.

(** A short column gives one chunk per row, a long one 15 chunks. *)
Lemma length_chunk_rows (L : nat) : length (viz.chunk_rows L) = Nat.min L 15.
Proof.
  unfold viz.chunk_rows. rewrite length_fmap.
  destruct (groupby_monotone _ (chunk_keys_monotone L)) as [Hcat Hne Hsort Hkeys].
  rewrite length_chunk_keys in Hcat.
  destruct (decide (L < 15)%nat) as [Hshort | Hlong].
  - rewrite Nat.min_l by lia.
    transitivity (length (seq 0 L)); [| apply length_seq].
    rewrite <- Hcat, length_concat_singletons, length_fmap; [reflexivity |].
    apply Forall_fmap, Forall_forall. intros g Hg. cbn.
    pose proof (chunk_group_size L g Hg).
    rewrite Forall_forall in Hne. specialize (Hne g Hg). cbn in Hne.
    destruct g.2; [contradiction | cbn in *; lia].
  - rewrite Nat.min_r by lia.
    transitivity (length (seqZ 0 15)); [| reflexivity].
    rewrite <- (length_fmap fst).
    apply Permutation_length, NoDup_Permutation;
      [apply sorted_groups_keys_NoDup, Hsort | apply NoDup_seqZ |].
    intros x. rewrite elem_of_seqZ. split.
    + intros Hx. apply list_elem_of_fmap in Hx as (g & -> & Hg).
      rewrite Forall_forall in Hkeys. specialize (Hkeys _ Hg).
      apply list_elem_of_lookup in Hkeys as [i Hi].
      pose proof (lookup_lt_Some _ _ _ Hi) as Hlt. rewrite length_chunk_keys in Hlt.
      rewrite (chunk_key_spec L i Hlt) in Hi. injection Hi as <-.
      pose proof (key_range L i Hlt). lia.
    + intros Hx.
      set (i := Z.to_nat ((x * Z.of_nat L + 14) / 15)).
      pose proof (div_bounds (x * Z.of_nat L + 14) 15 ltac:(lia)) as Hd.
      assert (Hi0 : 0 ≤ (x * Z.of_nat L + 14) / 15) by (apply Z.div_pos; nia).
      assert (Hi : (i < L)%nat) by (subst i; nia).
      assert (Hk : 15 * Z.of_nat i / Z.of_nat L = x).
      { symmetry. apply (Z.div_unique _ _ x (15 * Z.of_nat i - Z.of_nat L * x)); [| lia].
        left. subst i. rewrite Z2Nat.id by exact Hi0. nia. }
      assert (H : i ∈ concat (pd.groupby (viz.chunk_keys L)).*2)
        by (rewrite Hcat; apply elem_of_seq; lia).
      apply elem_of_group_rows in H as (g & Hg & Hig).
      pose proof (groupby_row_key _ _ _ Hg Hig) as Hgk.
      rewrite (chunk_key_spec L i Hi), Hk in Hgk. injection Hgk as ->.
      apply list_elem_of_fmap. exists g. done.
Qed.

End chunk_count.

(** X14.  The number of bars of [missing_heatmap] is [min(len(ser), 15)]: a
    column of fewer than 15 rows gets one bar per row, a longer one exactly
    15 bars, and an empty column none, the call returning normally in every
    case. *)
Theorem missing_heatmap_bar_count (ser : Series) (w : world) :
  ∃ bars,
    draws (viz.missing_heatmap ser) w bars ∧
    length bars = Nat.min (pd.len ser) 15 ∧
    (pd.len ser = 0%nat → bars = []) ∧
    ((pd.len ser < 15)%nat →
       viz.chunk_rows (pd.len ser) = (λ i, [i]) <$> seq 0 (pd.len ser)).
Proof.
  exists (imap heat_bar (viz.ser_chunk ser)).
  split; [apply missing_heatmap_draws |].
  assert (Hlen : length (imap heat_bar (viz.ser_chunk ser)) = Nat.min (pd.len ser) 15)
    by (rewrite length_imap, length_ser_chunk; apply length_chunk_rows).
  split; [exact Hlen |]. split.
  - intros H0. rewrite H0 in Hlen. apply nil_length_inv, Hlen.
  - intros Hshort. set (L := pd.len ser) in *.
    assert (Hone : Forall (λ rows, length rows = 1%nat) (viz.chunk_rows L)).
    { pose proof (grouped_nonempty _ _ (groupby_monotone _ (chunk_keys_monotone L))) as Hne.
      unfold viz.chunk_rows. apply Forall_fmap, Forall_forall. intros g Hg. cbn.
      pose proof (chunk_group_size L g Hg).
      rewrite Forall_forall in Hne. specialize (Hne g Hg). cbn in Hne.
      destruct g.2; [contradiction | cbn in *; lia]. }
    apply singletons_of_seq; [exact Hone | apply chunk_rows_concat].
Qed.

Lemma missing_heatmap_bar_count_witness :
  ∃ bars,
    draws (viz.missing_heatmap (NumSeries (replicate 40 NaN))) initial_world bars ∧
    length bars = 15%nat.
Proof.
  destruct (missing_heatmap_bar_count (NumSeries (replicate 40 NaN)) initial_world)
    as (bars & Hd & Hlen & _).
  exists bars. split; [exact Hd | exact Hlen].
Defined.

(** X15.  The chunks of [missing_heatmap] are balanced: two rows are in the
    same chunk exactly when [floor(15 i / len)] is the same for both, and the
    number of rows of every chunk differs from [len / 15] by less than one,
    so it is [floor(len / 15)] or [ceil(len / 15)]. *)
Theorem missing_heatmap_chunks_balanced (L : nat) (rows : list nat) :
  rows ∈ viz.chunk_rows L →
  15 * (Z.of_nat (length rows) - 1) < Z.of_nat L < 15 * (Z.of_nat (length rows) + 1) ∧
  Z.of_nat L / 15 ≤ Z.of_nat (length rows) ≤ (Z.of_nat L + 14) / 15 ∧
  ∀ i i', i ∈ rows → (i' < L)%nat →
    (i' ∈ rows ↔ 15 * Z.of_nat i' / Z.of_nat L = 15 * Z.of_nat i / Z.of_nat L).
Proof.
  intros Hrows. unfold viz.chunk_rows in Hrows.
  apply list_elem_of_fmap in Hrows as (g & -> & Hg).
  pose proof (chunk_group_size L g Hg) as Hsize.
  split; [exact Hsize |]. split.
  - pose proof (div_bounds (Z.of_nat L) 15 ltac:(lia)).
    pose proof (div_bounds (Z.of_nat L + 14) 15 ltac:(lia)). lia.
  - destruct (chunk_group L g Hg) as (a & n & Hseq & Hn & HL & Hkey).
    intros i i' Hi Hi'. rewrite Hseq in *. apply elem_of_seq in Hi.
    rewrite elem_of_seq. rewrite (proj2 (Hkey i ltac:(lia)) ltac:(lia)).
    rewrite (Hkey i' Hi'). lia.
Qed.

Lemma missing_heatmap_chunks_balanced_witness :
  15 * (Z.of_nat (length [0; 1]%nat) - 1) < Z.of_nat 20
    < 15 * (Z.of_nat (length [0; 1]%nat) + 1) ∧
  Z.of_nat 20 / 15 ≤ Z.of_nat (length [0; 1]%nat) ≤ (Z.of_nat 20 + 14) / 15.
Proof.
  destruct (missing_heatmap_chunks_balanced 20 [0; 1]%nat) as (H1 & H2 & _).
  - vm_compute. apply list_elem_of_here.
  - split; [exact H1 | exact H2].
Defined.

(** ** The donut sparkline and the shared scale *)

Section donut_picture.

(** What [donut] draws does not depend on the world it is run in. *)
Lemma donut_draws_uniform (perc : pyfloat) (label : option string) (color : string)
    (wedgewidth : Q) :
  ∃ l, (∀ w, draws (viz.donut perc label color wedgewidth) w l) ∧
       (outside_unit_interval perc → l = []) ∧
       (¬ outside_unit_interval perc → texts l = [donut_text label] ∧ wedges l ≠ []).
Proof.
  destruct (unit_interval_cases perc) as [(q & -> & [H | [H | [H0 H1]]]) | Hout].
  - eexists. split; [intros w; apply donut_full, H |].
    split; [| intros _; split; [reflexivity | discriminate]].
    cbn [outside_unit_interval]. intros [C | C]; rewrite H in C;
      [discriminate C | exfalso; exact (Qlt_irrefl _ C)].
  - eexists. split; [intros w; apply donut_empty, H |].
    split; [| intros _; split; [reflexivity | discriminate]].
    cbn [outside_unit_interval]. intros [C | C]; rewrite H in C;
      [exfalso; exact (Qlt_irrefl _ C) | discriminate C].
  - eexists. split; [intros w; apply donut_partial; assumption |].
    split; [| intros _; split; [reflexivity | discriminate]].
    cbn [outside_unit_interval]. intros [C | C]; lra.
  - exists []. split; [intros w; apply donut_outside, Hout |].
    split; [reflexivity | contradiction].
Qed.

End donut_picture.




(** ** The missing-data heatmap: the range of the colours *)

Section colour_facts.

Lemma count_none (flags : list bool) :
  pd.count flags = 0%nat ↔ Forall (λ b, b = false) flags.
Proof.
  unfold pd.count. induction flags as [| b flags IH]; [split; constructor |].
  destruct b.
  - rewrite filter_cons_True by reflexivity. cbn. split; [discriminate |].
    intros H. apply Forall_cons in H as [H _]. discriminate H.
  - rewrite filter_cons_False by discriminate. rewrite IH, Forall_cons. tauto.
Qed.

(** The completion of a non-empty chunk is a share: it lies in [[0, 1]], and
    it is 0 exactly when every entry of the chunk is missing. *)
Lemma completion_range (flags : list bool) :
  flags ≠ [] →
  (0 <= viz.completion flags)%Q ∧ (viz.completion flags <= 1)%Q ∧
  ((viz.completion flags == 0)%Q ↔ Forall (λ b, b = false) flags).
Proof.
  intros Hne. rewrite <- count_none. unfold viz.completion.
  pose proof (count_le_length flags) as Hle.
  assert (Hlen : (0 < length flags)%nat) by (destruct flags; [contradiction | cbn; lia]).
  assert (HQ : (0 < inject_Z (Z.of_nat (length flags)))%Q).
  { change 0%Q with (inject_Z 0). rewrite <- Zlt_Qlt. lia. }
  assert (HC : (0 <= inject_Z (Z.of_nat (pd.count flags)))%Q).
  { change 0%Q with (inject_Z 0). rewrite <- Zle_Qle. lia. }
  assert (HCL : (inject_Z (Z.of_nat (pd.count flags)) <= inject_Z (Z.of_nat (length flags)))%Q).
  { rewrite <- Zle_Qle. lia. }
  split; [apply Qle_shift_div_l; [exact HQ | lra] |].
  split; [apply Qle_shift_div_r; [exact HQ | lra] |].
  split.
  - intros H0.
    assert (E : (inject_Z (Z.of_nat (pd.count flags)) == 0)%Q).
    { rewrite <- (Qmult_1_r (inject_Z (Z.of_nat (pd.count flags)))).
      rewrite <- (Qmult_div_r (inject_Z (Z.of_nat (pd.count flags)) * 1)
                    (inject_Z (Z.of_nat (length flags)))) by lra.
      rewrite H0. ring. }
    change 0%Q with (inject_Z 0) in E. rewrite inject_Z_injective in E. lia.
  - intros ->. reflexivity.
Qed.

End colour_facts.

(** X18.  The colour of every bar of [missing_heatmap] stays within the
    colour map.  The completion [c] of a chunk is a share in [[0, 1]]; the
    bar is white when [c] is 1, and otherwise its colour is [cm.Reds(x)] with
    [x = (1 - c + 0.1) / 1.1], which lies in [(1/11, 1]]: [x] is 1, the
    darkest red, exactly when every entry of the chunk is missing. *)
Theorem missing_heatmap_colour_range (ser : Series) (w : world) :
  ∃ bars,
    draws (viz.missing_heatmap ser) w bars ∧
    ∀ i r, bars !! i = Some (ARect r) →
      ∃ rows,
        viz.chunk_rows (pd.len ser) !! i = Some rows ∧
        let flags := pd.take_rows (pd.notna ser) rows in
        let c := viz.completion flags in
        (0 <= c)%Q ∧ (c <= 1)%Q ∧
        ((rect_color r = Named "white" ∧ (c == 1)%Q) ∨
         (∃ x, rect_color r = Reds (Finite x) ∧
               (x == (1 - c + (1 # 10)) / (11 # 10))%Q ∧
               (1 # 11 < x)%Q ∧ (x <= 1)%Q ∧
               ((x == 1)%Q ↔ Forall (λ b, b = false) flags))).
Proof.
  exists (imap heat_bar (viz.ser_chunk ser)).
  split; [apply missing_heatmap_draws |].
  intros i r Hbar. rewrite list_lookup_imap in Hbar.
  unfold viz.ser_chunk in Hbar. rewrite list_lookup_fmap in Hbar.
  destruct (viz.chunk_rows (pd.len ser) !! i) as [rows |] eqn:Hrows; [| discriminate Hbar].
  cbn in Hbar. injection Hbar as <-. exists rows. split; [reflexivity |].
  cbn zeta. cbn [rect_color].
  set (flags := pd.take_rows (pd.notna ser) rows).
  assert (Hin : rows ∈ viz.chunk_rows (pd.len ser)) by (eapply list_elem_of_lookup_2, Hrows).
  assert (Hne : flags ≠ []).
  { assert (Hlen : length flags = length rows).
    { apply length_take_rows. rewrite length_notna. apply chunk_rows_in_range, Hin. }
    pose proof (chunk_rows_nonempty (pd.len ser)) as H. rewrite Forall_forall in H.
    specialize (H _ Hin). intros E. rewrite E in Hlen. destruct rows; [contradiction | discriminate]. }
  destruct (completion_range flags Hne) as (H0 & H1 & Hzero).
  split; [exact H0 |]. split; [exact H1 |].
  set (c := viz.completion flags) in *.
  unfold viz.heat_color. destruct (Qeq_bool (1 - c) 0) eqn:E.
  - left. split; [reflexivity |]. apply Qeq_bool_iff in E. lra.
  - right. apply Qeq_bool_false_iff in E. eexists. split; [reflexivity |].
    split; [reflexivity |].
    assert (Hc : (c < 1)%Q).
    { destruct (Qlt_le_dec c 1) as [Hlt | Hge]; [exact Hlt |]. exfalso. apply E. lra. }
    split; [apply Qlt_shift_div_l; [reflexivity | lra] |].
    split; [apply Qle_shift_div_r; [reflexivity | lra] |].
    rewrite <- Hzero. split.
    + intros Hx.
      assert (Hmul : (1 - c + (1 # 10) == 1 * (11 # 10))%Q).
      { transitivity ((1 - c + (1 # 10)) / (11 # 10) * (11 # 10))%Q;
          [symmetry; apply Qdiv_mult_l; discriminate | rewrite Hx; reflexivity]. }
      lra.
    + intros Hx. rewrite Hx. reflexivity.
Qed.

(** ** The robust histogram: no value is lost *)

Section count_facts.

Lemma length_normalize_ser (ser : Series) :
  length (viz.normalize_ser ser) = pd.count (pd.notna ser).
Proof.
  unfold viz.normalize_ser, pd.to_numeric, pd.count.
  destruct ser as [l | l]; cbn [pd.dropna pd.notna viz.codes_if_object].
  - unfold pd.dropna_num. induction l as [| x l IH]; [reflexivity |].
    cbn [map]. destruct x; cbn [float.isnan negb];
      rewrite ?filter_cons_True, ?filter_cons_False by (reflexivity || discriminate);
      cbn [length]; rewrite ?IH; reflexivity.
  - rewrite length_map, length_cat_codes.
    induction l as [| o l IH]; [reflexivity |].
    cbn [map]. destruct o as [s |].
    + rewrite !filter_cons_True by (reflexivity || (eexists; reflexivity)).
      cbn [length]. rewrite IH. reflexivity.
    + rewrite !filter_cons_False by (discriminate || (intros [? ?]; discriminate)).
      exact IH.
Qed.

End count_facts.


